(** * js-data-adapter-cloudflare: query compiler, schema compiler and adapter core

    A shallow embedding of [src/util.js] ([underscore], [toSql],
    [createTableSql]) and of the adapter class [CloudflareAdapter]
    ([_executeSQL], [_getTable], [_ensureTable], [_create]), with the
    properties of the specification stated and proved over it.

    Conventions of the embedding.
    - JavaScript strings are [string]; only ASCII case conversion is modelled.
    - JavaScript numbers are integers ([Z]); floating point is not modelled.
    - A plain object is an association list in [Object.entries] order; keys
      are assumed not to be canonical array indices (which JavaScript would
      enumerate first) and not to be inherited from [Object.prototype].
    - Objects that the code mutates live in an explicit store ([heap]) and
      are passed by reference.
    - [knex] (the query builder) and [fetch] (the HTTP transport) are
      external: the first is an interface with two instances, the second an
      oracle given as a section variable. *)

From Stdlib Require Import ZArith String Ascii List Bool Lia.
From Stdlib Require Import Numbers.DecimalString.
From stdpp Require Import base option list gmap strings.

Import ListNotations.
Set Warnings "-register-all".
Local Open Scope string_scope.
Local Open Scope list_scope.

(** ** Strings *)

(** [Array.prototype.join] on an array of strings. *)
Definition join (sep : string) (parts : list string) : string :=
  String.concat sep parts.

(** [String(n)] for an integer [n]. *)
Definition string_of_Z (n : Z) : string :=
  NilZero.string_of_int (Z.to_int n).

Definition is_upper (c : ascii) : bool :=
  let n := nat_of_ascii c in (65 <=? n)%nat && (n <=? 90)%nat.

Definition lower (c : ascii) : ascii :=
  if is_upper c then ascii_of_nat (nat_of_ascii c + 32) else c.

(** [str.replace(/([A-Z])/g, '_$1')] *)
Fixpoint replace_upper (s : string) : string :=
  match s with
  | EmptyString => EmptyString
  | String c r =>
      if is_upper c then String "_" (String c (replace_upper r))
      else String c (replace_upper r)
  end.

(** [str.toLowerCase()] *)
Fixpoint toLowerCase (s : string) : string :=
  match s with
  | EmptyString => EmptyString
  | String c r => String (lower c) (toLowerCase r)
  end.

(** [str.replace(/^_/, '')] *)
Definition strip_leading_underscore (s : string) : string :=
  match s with
  | String "_" r => r
  | _ => s
  end.

(** [underscore(str)]: camelCase to snake_case. *)
Definition underscore (str : string) : string :=
  strip_leading_underscore (toLowerCase (replace_upper str)).

(** JavaScript truthiness of a string. *)
Definition truthy_string (s : string) : bool :=
  match s with EmptyString => false | _ => true end.

(** [a || b] where [a] is a possibly absent string. *)
Definition or_else (a : option string) (b : string) : string :=
  match a with
  | Some s => if truthy_string s then s else b
  | None => b
  end.

(** ** Mapper metadata *)

(** A literal that may stand as a column default. *)
Inductive literal :=
| LNull
| LBool (b : bool)
| LNum (n : Z)
| LStr (s : string).

(** One field descriptor of [schema.properties]. Absent flags are [false]. *)
Record fieldSchema := FieldSchema {
  type : option string;
  required : bool;
  notNull : bool;
  unique : bool;
  default : option literal
}.

Record Schema := MkSchema {
  properties : option (list (string * fieldSchema))
}.

Record Mapper := MkMapper {
  name : string;
  table : option string;
  idAttribute : option string;
  schema : option Schema
}.

(** ** Schema compiler ([createTableSql]) *)

Module SchemaCompiler.

(** [obj[key]] on an association list. *)
Fixpoint lookup_key {A} (key : string) (entries : list (string * A)) : option A :=
  match entries with
  | [] => None
  | (k, v) :: rest => if String.eqb k key then Some v else lookup_key key rest
  end.

(** [`${v}`] for a literal that is not a string. *)
Definition literal_to_string (v : literal) : string :=
  match v with
  | LNull => "null"
  | LBool true => "true"
  | LBool false => "false"
  | LNum n => string_of_Z n
  | LStr s => s
  end.

(** The [switch (fieldSchema.type)] of the column type. *)
Definition columnType (ty : option string) : string :=
  match ty with
  | Some t =>
      if truthy_string t then
        if String.eqb t "string" then " TEXT"
        else if String.eqb t "number" || String.eqb t "integer" then " INTEGER"
        else if String.eqb t "boolean" then " INTEGER"
        else if String.eqb t "object" || String.eqb t "array" then " TEXT"
        else " TEXT"
      else " TEXT"
  | None => " TEXT"
  end.

Definition defaultClause (d : option literal) : string :=
  match d with
  | None => ""
  | Some (LStr s) => " DEFAULT '" ++ s ++ "'"
  | Some v => " DEFAULT " ++ literal_to_string v
  end.

(** The body of the loop after the [continue] test: one column definition. *)
Definition columnDef (idAttr fieldName : string) (fs : fieldSchema) : string :=
  fieldName
  ++ columnType (type fs)
  ++ (if String.eqb fieldName idAttr then " PRIMARY KEY AUTOINCREMENT" else "")
  ++ (if required fs || notNull fs then " NOT NULL" else "")
  ++ (if unique fs then " UNIQUE" else "")
  ++ defaultClause (default fs).

(** One iteration of [for (const [fieldName, fieldSchema] of ...)], on the
    array [columns] built so far. *)
Definition column_step (idAttr : string) (columns : list string)
  (entry : string * fieldSchema) : list string :=
  let '(fieldName, fs) := entry in
  if String.eqb fieldName idAttr && (0 <? length columns)%nat
  then columns
  else columns ++ [columnDef idAttr fieldName fs].

Definition synthesized_id (idAttr : string) : string :=
  idAttr ++ " INTEGER PRIMARY KEY AUTOINCREMENT".

Definition resolved_properties (mapper : Mapper) : list (string * fieldSchema) :=
  match schema mapper with
  | Some s => match properties s with Some p => p | None => [] end
  | None => []
  end.

Definition resolved_idAttribute (mapper : Mapper) : string :=
  or_else (idAttribute mapper) "_id".

(** The array [columns] just before the final template string. *)
Definition columns_of (mapper : Mapper) : list string :=
  let props := resolved_properties mapper in
  let idAttr := resolved_idAttribute mapper in
  let columns0 :=
    match lookup_key idAttr props with
    | None => [synthesized_id idAttr]
    | Some _ => []
    end in
  let columns1 := fold_left (column_step idAttr) props columns0 in
  if (length columns1 =? 0)%nat then columns1 ++ [synthesized_id idAttr]
  else columns1.

Definition createTableSql (mapper : Mapper) (tableName : string) : string :=
  "CREATE TABLE IF NOT EXISTS " ++ tableName
  ++ " (" ++ join ", " (columns_of mapper) ++ ")".

End SchemaCompiler.

Import SchemaCompiler.

(** [{properties: {id: {type: 'integer'}, name: {type: 'string', required:
    true}, email: {type: 'string', unique: true}}}] *)
Definition scenario_schema : Schema :=
  MkSchema (Some
    [ ("id", FieldSchema (Some "integer") false false false None);
      ("name", FieldSchema (Some "string") true false false None);
      ("email", FieldSchema (Some "string") false false true None) ]).

(** [{name: 'user', idAttribute: 'id', schema: {properties: {name: {type:
    'string'}, id: {type: 'integer'}}}}] *)
Definition id_last_mapper : Mapper :=
  MkMapper "user" None (Some "id")
    (Some (MkSchema (Some
      [ ("name", FieldSchema (Some "string") false false false None);
        ("id", FieldSchema (Some "integer") false false false None) ]))).

(** ** JavaScript data *)

(** Immutable plain data (what [JSON.parse] or an object literal denotes). *)
Inductive data :=
| DUndef
| DNull
| DBool (b : bool)
| DNum (n : Z)
| DStr (s : string)
| DArr (elems : list data)
| DObj (entries : list (string * data)).

(** ** The query builder interface (knex, external) *)

(** The builder methods [toSql] calls. [where_] is
    [builder.where(field, operator, value)]. A value handed to the builder is
    given as the plain data it holds. *)
Class QueryBuilder (B : Type) := {
  limit : B -> data -> B;
  offset : B -> data -> B;
  orderBy : B -> string -> string -> B;
  where_ : B -> string -> string -> data -> B;
  whereIn : B -> string -> data -> B;
  whereNotIn : B -> string -> data -> B
}.

(** One builder method call. *)
Inductive call :=
| CLimit (v : data)
| COffset (v : data)
| COrderBy (column direction : string)
| CWhere (field operator : string) (v : data)
| CWhereIn (field : string) (v : data)
| CWhereNotIn (field : string) (v : data).

(** First instance: the builder is the log of the calls made on it. Whatever
    SQL knex prints is a function of this log. *)
#[export] Instance log_builder : QueryBuilder (list call) := {
  limit b v := b ++ [CLimit v];
  offset b v := b ++ [COffset v];
  orderBy b c d := b ++ [COrderBy c d];
  where_ b f o v := b ++ [CWhere f o v];
  whereIn b f v := b ++ [CWhereIn f v];
  whereNotIn b f v := b ++ [CWhereNotIn f v]
}.

(** Second instance, modelled on knex's documented behaviour: a select
    statement keeps a single LIMIT and a single OFFSET (the last one set),
    and accumulates ORDER BY items and AND-ed WHERE predicates. *)
Record statement := Statement {
  st_limit : option data;
  st_offset : option data;
  st_order : list (string * string);
  st_where : list call
}.

Definition empty_statement : statement := Statement None None [] [].

#[export] Instance statement_builder : QueryBuilder statement := {
  limit b v := Statement (Some v) (st_offset b) (st_order b) (st_where b);
  offset b v := Statement (st_limit b) (Some v) (st_order b) (st_where b);
  orderBy b c d := Statement (st_limit b) (st_offset b) (st_order b ++ [(c, d)]) (st_where b);
  where_ b f o v := Statement (st_limit b) (st_offset b) (st_order b) (st_where b ++ [CWhere f o v]);
  whereIn b f v := Statement (st_limit b) (st_offset b) (st_order b) (st_where b ++ [CWhereIn f v]);
  whereNotIn b f v := Statement (st_limit b) (st_offset b) (st_order b) (st_where b ++ [CWhereNotIn f v])
}.

(** ** Query compiler ([toSql]) on query contents *)

(** The abstract query as the compiler reads it: the four reserved keys and,
    in [Object.entries] order, the remaining keys with their operator
    objects. *)
Inductive query := Query {
  q_limit : option data;
  q_offset : option data;
  q_orderBy : option (list (string * string));
  q_where : option query;
  q_fields : list (string * list (string * data))
}.

Definition empty_query : query := Query None None None None [].

Section Compile.
Context {B : Type} `{QueryBuilder B}.

(** The [switch (op)] inside the inner loop; an operator outside the twelve
    cases falls through the switch and leaves the builder as it is. *)
Definition apply_op (builder : B) (field op : string) (value : data) : B :=
  if String.eqb op "==" || String.eqb op "===" then where_ builder field "=" value
  else if String.eqb op "!=" || String.eqb op "!==" then where_ builder field "<>" value
  else if String.eqb op ">" then where_ builder field ">" value
  else if String.eqb op ">=" then where_ builder field ">=" value
  else if String.eqb op "<" then where_ builder field "<" value
  else if String.eqb op "<=" then where_ builder field "<=" value
  else if String.eqb op "in" || String.eqb op "contains" then whereIn builder field value
  else if String.eqb op "notIn" || String.eqb op "notContains" then whereNotIn builder field value
  else builder.

(** [for (let [op, value] of Object.entries(cond))] *)
Definition apply_cond (builder : B) (field : string) (cond : list (string * data)) : B :=
  fold_left (fun b '(op, value) => apply_op b field op value) cond builder.

(** [for (let [field, cond] of Object.entries(query))] *)
Definition apply_fields (builder : B) (fields : list (string * list (string * data))) : B :=
  fold_left (fun b '(field, cond) => apply_cond b field cond) fields builder.

(** [for (const [name, direction] of query.orderBy)] *)
Definition apply_orderBy (builder : B) (order : list (string * string)) : B :=
  fold_left (fun b '(name, direction) => orderBy b name (toLowerCase direction))
    order builder.

End Compile.

Definition recognized (op : string) : bool :=
  existsb (String.eqb op)
    ["=="; "==="; "!="; "!=="; ">"; ">="; "<"; "<="; "in"; "contains";
     "notIn"; "notContains"].

Section CompileQuery.
Context {B : Type} `{QueryBuilder B}.

(** [toSql(builder, query)] as a function of the query's contents. The
    deletions on the working copy show only in which keys the final loop
    still sees: those of [q_fields]. *)
Fixpoint toSql (builder : B) (q : query) : B :=
  let builder :=
    match q_limit q with Some v => limit builder v | None => builder end in
  let builder :=
    match q_offset q with Some v => offset builder v | None => builder end in
  let builder :=
    match q_orderBy q with
    | Some order => apply_orderBy builder order
    | None => builder
    end in
  let builder :=
    match q_where q with Some w => toSql builder w | None => builder end in
  apply_fields builder (q_fields q).

End CompileQuery.

(** ** The object store *)

Definition loc := positive.

(** A JavaScript value: a primitive or a reference to a stored object. *)
Inductive jsval :=
| VUndef
| VNull
| VBool (b : bool)
| VNum (n : Z)
| VStr (s : string)
| VRef (l : loc).

(** A stored object: a plain object (own enumerable properties in
    [Object.entries] order) or an array. *)
Inductive obj :=
| Obj (entries : list (string * jsval))
| Arr (elems : list jsval).

Abbreviation heap := (gmap loc obj).

(** JavaScript truthiness. *)
Definition truthy (v : jsval) : bool :=
  match v with
  | VUndef | VNull => false
  | VBool b => b
  | VNum n => negb (n =? 0)%Z
  | VStr s => truthy_string s
  | VRef _ => true
  end.

(** [key in obj] / [obj[key]] on own properties. *)
Definition get_prop (key : string) (entries : list (string * jsval)) : option jsval :=
  lookup_key key entries.

(** [delete obj[key]] *)
Definition delete_prop {A} (key : string) (entries : list (string * A))
  : list (string * A) :=
  List.filter (fun e => negb (String.eqb (fst e) key)) entries.

(** [obj[key] = v]: overwrite in place, or add as the last property. *)
Fixpoint set_prop (key : string) (v : jsval) (entries : list (string * jsval))
  : list (string * jsval) :=
  match entries with
  | [] => [(key, v)]
  | (k, w) :: rest =>
      if String.eqb k key then (k, v) :: rest else (k, w) :: set_prop key v rest
  end.

(** ** Computations with state and exceptions *)

(** How a call ends: normally, by a thrown [Error] with its message, or
    outside the model ([Stuck]: fuel exhausted, a dangling reference, or a
    shape of data the embedding does not cover). The state is kept in every
    case, as a [throw] keeps the effects that came before it. *)
Inductive outcome (A : Type) :=
| Ok (a : A)
| Throw (msg : string)
| Stuck.

Arguments Ok {A} a.
Arguments Throw {A} msg.
Arguments Stuck {A}.

Definition M (S A : Type) : Type := S -> outcome A * S.

Definition ret {S A} (a : A) : M S A := fun s => (Ok a, s).

Definition bind {S A C} (m : M S A) (k : A -> M S C) : M S C :=
  fun s =>
    match m s with
    | (Ok a, s') => k a s'
    | (Throw msg, s') => (Throw msg, s')
    | (Stuck, s') => (Stuck, s')
    end.

Definition throw {S A} (msg : string) : M S A := fun s => (Throw msg, s).
Definition stuck {S A} : M S A := fun s => (Stuck, s).
Definition get_state {S} : M S S := fun s => (Ok s, s).
Definition modify {S} (f : S -> S) : M S unit := fun s => (Ok tt, f s).

Notation "x <- m ;; k" := (bind m (fun x => k))
  (at level 100, m at level 99, right associativity, only parsing).
Notation "m ;;; k" := (bind m (fun _ => k))
  (at level 100, right associativity, only parsing).

(** [for (x of xs) { acc = f(acc, x) }] with effects. *)
Fixpoint foldM {S A X} (f : A -> X -> M S A) (xs : list X) (acc : A) : M S A :=
  match xs with
  | [] => ret acc
  | x :: rest => acc' <- f acc x ;; foldM f rest acc'
  end.

(** Map with effects, left to right. *)
Fixpoint mapM {S X Y} (f : X -> M S Y) (xs : list X) : M S (list Y) :=
  match xs with
  | [] => ret []
  | x :: rest => y <- f x ;; ys <- mapM f rest ;; ret (y :: ys)
  end.

Module Store.

Definition read (l : loc) : M heap obj :=
  fun h => match h !! l with Some o => (Ok o, h) | None => (Stuck, h) end.

Definition write (l : loc) (o : obj) : M heap unit :=
  modify (fun h => <[l := o]> h).

(** A new object: its reference is one the store does not hold yet. *)
Definition alloc (o : obj) : M heap loc :=
  fun h => let l := fresh (dom h) in (Ok l, <[l := o]> h).

(** The own properties of the object [l]; an array is outside the model. *)
Definition read_props (l : loc) : M heap (list (string * jsval)) :=
  o <- read l ;;
  match o with
  | Obj entries => ret entries
  | Arr _ => stuck
  end.

(** [delete query[key]] on the stored object [l]. *)
Definition delete_key (l : loc) (key : string) : M heap unit :=
  entries <- read_props l ;;
  write l (Obj (delete_prop key entries)).

(** Modelled from the spec: [utils.plainCopy] belongs to js-data, which is
    not under src/; the specification has the compiler work on a deep copy.
    Primitives are returned as they are; an object or array is rebuilt from
    copies of its members in a new store cell. Shared members are copied once
    per occurrence; cyclic data exhausts the fuel. *)
Fixpoint plainCopy (fuel : nat) (v : jsval) : M heap jsval :=
  match fuel with
  | O => stuck
  | S fuel' =>
      match v with
      | VRef l =>
          o <- read l ;;
          match o with
          | Obj entries =>
              entries' <- mapM (fun e =>
                             w <- plainCopy fuel' (snd e) ;; ret (fst e, w)) entries ;;
              l' <- alloc (Obj entries') ;;
              ret (VRef l')
          | Arr elems =>
              elems' <- mapM (plainCopy fuel') elems ;;
              l' <- alloc (Arr elems') ;;
              ret (VRef l')
          end
      | _ => ret v
      end
  end.

(** The plain data a value holds in the store, read at the time of the call.
    (knex reads a value when it prints the statement; [toSql] hands it members
    of its own copy, which nothing writes to afterwards.) *)
Fixpoint reify (fuel : nat) (v : jsval) : M heap data :=
  match fuel with
  | O => stuck
  | S fuel' =>
      match v with
      | VUndef => ret DUndef
      | VNull => ret DNull
      | VBool b => ret (DBool b)
      | VNum n => ret (DNum n)
      | VStr s => ret (DStr s)
      | VRef l =>
          o <- read l ;;
          match o with
          | Obj entries =>
              ds <- mapM (fun e => d <- reify fuel' (snd e) ;; ret (fst e, d)) entries ;;
              ret (DObj ds)
          | Arr elems =>
              ds <- mapM (reify fuel') elems ;;
              ret (DArr ds)
          end
      end
  end.

Section StoreCompile.
Context {B : Type} `{QueryBuilder B}.

(** [Object.entries(cond)]: [undefined] and [null] raise a TypeError; the
    index entries of a string or an array carry no recognized operator and
    are left out, as are those of the other primitives, which have none. *)
Definition entries_of_cond (cond : jsval) : M heap (list (string * jsval)) :=
  match cond with
  | VUndef | VNull => throw "TypeError: Cannot convert undefined or null to object"
  | VBool _ | VNum _ | VStr _ => ret []
  | VRef l =>
      o <- read l ;;
      match o with
      | Obj entries => ret entries
      | Arr _ => ret []
      end
  end.

(** The two leading elements of an array pattern [[name, direction]]. *)
Definition destructure_pair (elems : list jsval) : jsval * jsval :=
  (nth 0 elems VUndef, nth 1 elems VUndef).

(** One iteration of [for (const [name, direction] of query.orderBy)]. *)
Definition orderBy_step (builder : B) (item : jsval) : M heap B :=
  match item with
  | VRef l =>
      o <- read l ;;
      match o with
      | Arr elems =>
          match destructure_pair elems with
          | (VStr name, VStr direction) =>
              ret (orderBy builder name (toLowerCase direction))
          | (_, VStr _) => stuck
          | (_, _) => throw "TypeError: direction.toLocaleLowerCase is not a function"
          end
      | Obj _ => throw "TypeError: item is not iterable"
      end
  | VStr _ => stuck
  | _ => throw "TypeError: item is not iterable"
  end.

(** [for (... of query.orderBy)]: only an array (or the empty string) can be
    iterated without a TypeError. *)
Definition orderBy_items (order : jsval) : M heap (list jsval) :=
  match order with
  | VRef l =>
      o <- read l ;;
      match o with
      | Arr elems => ret elems
      | Obj _ => throw "TypeError: query.orderBy is not iterable"
      end
  | VStr "" => ret []
  | VStr _ => throw "TypeError: direction.toLocaleLowerCase is not a function"
  | _ => throw "TypeError: query.orderBy is not iterable"
  end.

(** [key in query ? query[key] : absent], read from the store. *)
Definition get_key (l : loc) (key : string) : M heap (option jsval) :=
  entries <- read_props l ;;
  ret (get_prop key entries).

(** One iteration of [for (let [field, cond] of Object.entries(query))]. *)
Definition field_step (fuel : nat) (q : loc) (builder : B) (e : string * jsval)
  : M heap B :=
  delete_key q (fst e) ;;;
  cond <- entries_of_cond (snd e) ;;
  cond <- mapM (fun c => d <- reify fuel (snd c) ;; ret (fst c, d)) cond ;;
  ret (apply_cond builder (fst e) cond).

(** [if (key in query) { builder = builder.method(query[key]); delete
    query[key]; }], the shape of the [limit] and [offset] blocks. *)
Definition value_phase (fuel : nat) (q : loc) (key : string)
  (method : B -> data -> B) (builder : B) : M heap B :=
  present <- get_key q key ;;
  match present with
  | Some v =>
      d <- reify fuel v ;;
      let builder := method builder d in
      delete_key q key ;;; ret builder
  | None => ret builder
  end.

(** [if ('orderBy' in query) { for (...) {...}  delete query.orderBy; }] *)
Definition orderBy_phase (q : loc) (builder : B) : M heap B :=
  present <- get_key q "orderBy" ;;
  match present with
  | Some v =>
      items <- orderBy_items v ;;
      builder <- foldM orderBy_step items builder ;;
      delete_key q "orderBy" ;;; ret builder
  | None => ret builder
  end.

(** The final loop over what is left of the copy. *)
Definition fields_phase (fuel : nat) (q : loc) (builder : B) : M heap B :=
  entries <- read_props q ;;
  foldM (field_step fuel q) entries builder.

(** [toSql(builder, query)] on the store. The argument [query] is a value the
    caller holds; every [delete] goes to the cell of the copy. *)
Fixpoint toSql (fuel : nat) (builder : B) (query : jsval) : M heap B :=
  match fuel with
  | O => stuck
  | S fuel' =>
      query <- plainCopy fuel query ;;
      match query with
      | VRef q =>
          builder <- value_phase fuel q "limit" limit builder ;;
          builder <- value_phase fuel q "offset" offset builder ;;
          builder <- orderBy_phase q builder ;;
          present <- get_key q "where" ;;
          builder <-
            match present with
            | Some v =>
                builder <- toSql fuel' builder v ;;
                delete_key q "where" ;;; ret builder
            | None => ret builder
            end ;;
          fields_phase fuel q builder
      | _ => throw "TypeError: Cannot use 'in' operator to search for 'limit'"
      end
  end.

End StoreCompile.

End Store.

(** ** The adapter ([CloudflareAdapter]) *)

(** The body of a request: [JSON.stringify({sql, params})]. *)
Record request := Request {
  sql : string;
  params : list jsval
}.

(** One entry of [errors] in the response envelope. *)
Record responseInfo := ResponseInfo {
  message : string
}.

(** One element of [result]: rows and metadata, both optional. *)
Record queryResult := QueryResult {
  results : option (list (list (string * jsval)));
  meta : option (list (string * jsval))
}.

(** The parsed response envelope. [success] is optional in the typings. *)
Record envelope := Envelope {
  success : option bool;
  result : list queryResult;
  errors : list responseInfo
}.

(** What [HTTP] yields: a rejected [fetch] (or unparsable body) with the
    message of its error, or the parsed envelope. *)
Inductive transport :=
| NetworkError (msg : string)
| Response (resp : envelope).

(** The adapter instance: the object store it shares with its callers, the
    private [#tableCache], the [autocreateTables] option, and the requests
    sent so far (oldest first). *)
Record adapter := Adapter {
  store : heap;
  tableCache : gset string;
  autocreateTables : option bool;
  sent : list request
}.

Definition truthy_flag (f : option bool) : bool :=
  match f with Some b => b | None => false end.

(** The adapter after one more request went out. *)
Definition record_request (req : request) (a : adapter) : adapter :=
  Adapter (store a) (tableCache a) (autocreateTables a) (sent a ++ [req]).

(** The adapter after [this.#tableCache.add(tableName)]. *)
Definition with_cached (tableName : string) (a : adapter) : adapter :=
  Adapter (store a) ({[tableName]} ∪ tableCache a) (autocreateTables a) (sent a).

(** The adapter after the stored object [l] was overwritten with [o]. *)
Definition with_cell (l : loc) (o : obj) (a : adapter) : adapter :=
  Adapter (<[l := o]> (store a)) (tableCache a) (autocreateTables a) (sent a).

(** [n] calls of [m] in sequence, stopping at the first that does not return. *)
Fixpoint repeatM {S A} (n : nat) (m : M S A) : M S (list A) :=
  match n with
  | O => ret []
  | S k => x <- m ;; xs <- repeatM k m ;; ret (x :: xs)
  end.

Module CloudflareAdapter.

Section Remote.
(** [fetch], as a function of the requests sent before and the request. *)
Variable fetch : list request -> request -> transport.
(** [knex(table).insert(props).toSQL()], given the stored [props]. *)
Variable insertSQL : string -> obj -> request.

(** [resp.errors[0]?.message || 'Unknown error'] *)
Definition error_message (resp : envelope) : string :=
  match errors resp with
  | [] => "Unknown error"
  | e :: _ => if truthy_string (message e) then message e else "Unknown error"
  end.

(** [this.HTTP(url, params)]: the request is recorded and answered. *)
Definition HTTP (req : request) : M adapter transport :=
  fun a => (Ok (fetch (sent a) req), record_request req a).

(** [resp.result[0]]: [None] stands for [undefined]. *)
Definition _executeSQL (sql : string) (params : list jsval)
  : M adapter (option queryResult) :=
  answer <- HTTP (Request sql params) ;;
  match answer with
  | NetworkError msg => throw msg
  | Response resp =>
      if negb (truthy_flag (success resp)) then throw (error_message resp)
      else ret (head (result resp))
  end.

Definition _getTable (mapper : Mapper) : string :=
  or_else (table mapper) (underscore (name mapper)).

Definition cache_add (tableName : string) : M adapter unit :=
  modify (with_cached tableName).

Definition _ensureTable (mapper : Mapper) : M adapter unit :=
  let tableName := _getTable mapper in
  a <- get_state ;;
  if decide (tableName ∈ tableCache a) then ret tt
  else if negb (truthy_flag (autocreateTables a)) then
    throw ("Table " ++ tableName ++ " not found")
  else
    let createSQL := createTableSql mapper tableName in
    _executeSQL createSQL [] ;;;
    cache_add tableName.

(** The property key [mapper.idAttribute] coerces to. *)
Definition id_key (mapper : Mapper) : string :=
  match idAttribute mapper with Some k => k | None => "undefined" end.

(** [result.meta?.last_row_id] *)
Definition last_row_id (r : queryResult) : jsval :=
  match meta r with
  | Some m => match get_prop "last_row_id" m with Some v => v | None => VUndef end
  | None => VUndef
  end.

Definition read_store (l : loc) : M adapter obj :=
  fun a => match store a !! l with Some o => (Ok o, a) | None => (Stuck, a) end.

(** [props[key] = v] on the stored object [props]. *)
Definition set_key (props : loc) (key : string) (v : jsval) : M adapter unit :=
  o <- read_store props ;;
  match o with
  | Obj entries => modify (with_cell props (Obj (set_prop key v entries)))
  | Arr _ => stuck
  end.

(** [_create(mapper, props, opts)]; [props] is the caller's reference. *)
Definition _create (mapper : Mapper) (props : loc)
  : M adapter (jsval * option (list (string * jsval))) :=
  _ensureTable mapper ;;;
  let table := _getTable mapper in
  o <- read_store props ;;
  let statement := insertSQL table o in
  result <- _executeSQL (sql statement) (params statement) ;;
  match result with
  | None => throw "TypeError: Cannot read properties of undefined (reading 'meta')"
  | Some r =>
      let id := last_row_id r in
      (if truthy id then set_key props (id_key mapper) id else ret tt) ;;;
      ret (VRef props, meta r)
  end.

End Remote.

End CloudflareAdapter.

Import CloudflareAdapter.

(** ** The other operations of the adapter *)

(** The knex calls the operations make besides those of [QueryBuilder]:
    [knex(table)], the statement kinds, and [builder.toSQL()]. An insert or
    update reads the props it is given in the store. *)
Class Knex (B : Type) := {
  k_table : string -> B;
  k_count : B -> string -> B;
  k_select : B -> string -> B;
  k_sum : B -> string -> B;
  k_insert : B -> heap -> jsval -> B;
  k_update : B -> heap -> jsval -> B;
  k_delete : B -> B;
  toSQL : B -> request
}.

(** A computation on the store, run on the store of the adapter. *)
Definition lift_store {A} (m : M heap A) : M adapter A :=
  fun a =>
    let '(r, h) := m (store a) in
    (r, Adapter h (tableCache a) (autocreateTables a) (sent a)).

(** [query || {}] *)
Definition or_empty (query : jsval) : M adapter jsval :=
  if truthy query then ret query
  else l <- lift_store (Store.alloc (Obj [])) ;; ret (VRef l).

(** The first property read of [result]: a TypeError when it is [undefined]. *)
Definition defined (prop : string) (result : option queryResult)
  : M adapter queryResult :=
  match result with
  | Some r => ret r
  | None =>
      throw ("TypeError: Cannot read properties of undefined (reading '"
             ++ prop ++ "')")
  end.

(** [result.results?.[0]] *)
Definition first_row (r : queryResult) : option (list (string * jsval)) :=
  match results r with
  | Some (row :: _) => Some row
  | _ => None
  end.

(** [result.results?.[0]?.key || 0] *)
Definition scalar_or_zero (key : string) (r : queryResult) : jsval :=
  let v :=
    match first_row r with
    | Some row => match get_prop key row with Some v => v | None => VUndef end
    | None => VUndef
    end in
  if truthy v then v else VNum 0.

(** [x.name] of a catalog row; the cache holds strings only, a row without a
    string name is outside the model. *)
Definition row_name (row : list (string * jsval)) : M adapter string :=
  match get_prop "name" row with
  | Some (VStr s) => ret s
  | _ => stuck
  end.

(** The elements a [for ... of] visits, with the read of [.length] that
    comes before it in [_updateMany]. *)
Definition iterate (records : jsval) : M adapter (list jsval) :=
  match records with
  | VUndef | VNull =>
      throw "TypeError: Cannot read properties of undefined (reading 'length')"
  | VRef l =>
      o <- read_store l ;;
      match o with
      | Arr elems => ret elems
      | Obj _ => throw "TypeError: records is not iterable"
      end
  | VStr _ => stuck
  | _ => throw "TypeError: records is not iterable"
  end.

Module Crud.

Section Operations.
Context {B : Type} `{QueryBuilder B} `{Knex B}.
Variable fetch : list request -> request -> transport.
(** [utils.get(record, path)] of js-data (external). *)
Variable utils_get : heap -> jsval -> option string -> data.

(** [const {sql, bindings} = builder.toSQL(); this._executeSQL(sql, bindings)] *)
Definition execute (builder : B) : M adapter (option queryResult) :=
  let statement := toSQL builder in
  _executeSQL fetch (sql statement) (params statement).

(** The three lines the filtering operations share:
    [builder = toSql(builder, query || {})], [builder.toSQL()],
    [this._executeSQL(sql, bindings)]. *)
Definition filtered (fuel : nat) (builder : B) (query : jsval)
  : M adapter (option queryResult) :=
  query <- or_empty query ;;
  builder <- lift_store (Store.toSql fuel builder query) ;;
  execute builder.

(** [mapper.idAttribute] as the column of a [where]; a mapper without one is
    outside the model. *)
Definition id_column (mapper : Mapper) : M adapter string :=
  match idAttribute mapper with
  | Some column => ret column
  | None => stuck
  end.

(** The constructor's detached task: list the tables, cache their names. *)
Definition seed_tableCache : M adapter unit :=
  resp <- _executeSQL fetch "select name from sqlite_master" [] ;;
  match resp with
  | None => ret tt
  | Some r =>
      match results r with
      | None => ret tt
      | Some rows =>
          names <- mapM row_name rows ;;
          foldM (fun _ tableName => cache_add tableName) names tt
      end
  end.

Definition _count (fuel : nat) (mapper : Mapper) (query : jsval)
  : M adapter (jsval * option (list (string * jsval))) :=
  _ensureTable fetch mapper ;;;
  let table := _getTable mapper in
  let builder := k_count (k_table table) "* as count" in
  result <- filtered fuel builder query ;;
  r <- defined "results" result ;;
  ret (scalar_or_zero "count" r, meta r).

Definition _createMany (mapper : Mapper) (props : jsval)
  : M adapter (jsval * option (list (string * jsval))) :=
  match props with
  | VUndef | VNull =>
      throw "TypeError: Cannot read properties of undefined (reading 'length')"
  | _ =>
      _ensureTable fetch mapper ;;;
      let table := _getTable mapper in
      a <- get_state ;;
      let builder := k_insert (k_table table) (store a) props in
      result <- execute builder ;;
      r <- defined "meta" result ;;
      ret (props, meta r)
  end.

Definition _find (mapper : Mapper) (id : data)
  : M adapter (option (list (string * jsval)) * option (list (string * jsval))) :=
  _ensureTable fetch mapper ;;;
  let table := _getTable mapper in
  column <- id_column mapper ;;
  let builder := limit (where_ (k_table table) column "=" id) (DNum 1) in
  result <- execute builder ;;
  r <- defined "results" result ;;
  ret (first_row r, meta r).

Definition _findAll (fuel : nat) (mapper : Mapper) (query : jsval)
  : M adapter (list (list (string * jsval)) * option (list (string * jsval))) :=
  _ensureTable fetch mapper ;;;
  let table := _getTable mapper in
  let builder := k_select (k_table table) "*" in
  result <- filtered fuel builder query ;;
  r <- defined "results" result ;;
  ret (match results r with Some rows => rows | None => [] end, meta r).

Definition _update (mapper : Mapper) (id : data) (props : jsval)
  : M adapter (option (list (string * jsval)) * option (list (string * jsval))) :=
  _ensureTable fetch mapper ;;;
  let table := _getTable mapper in
  column <- id_column mapper ;;
  a <- get_state ;;
  let builder := k_update (where_ (k_table table) column "=" id) (store a) props in
  result <- execute builder ;;
  found <- _find mapper id ;;
  r <- defined "meta" result ;;
  ret (fst found, meta r).

Definition _updateAll (fuel : nat) (mapper : Mapper) (props query : jsval)
  : M adapter (list (list (string * jsval)) * option (list (string * jsval))) :=
  _ensureTable fetch mapper ;;;
  let table := _getTable mapper in
  a <- get_state ;;
  let builder := k_update (k_table table) (store a) props in
  result <- filtered fuel builder query ;;
  r <- defined "meta" result ;;
  ret ([], meta r).

(** One turn of the loop of [_updateMany], on the arrays [results] and
    [metas] built so far. *)
Definition updateMany_step (mapper : Mapper)
  (acc : list (option (list (string * jsval)))
         * list (option (list (string * jsval))))
  (record : jsval)
  : M adapter (list (option (list (string * jsval)))
               * list (option (list (string * jsval)))) :=
  a <- get_state ;;
  let id := utils_get (store a) record (idAttribute mapper) in
  updated <- _update mapper id record ;;
  ret (fst acc ++ [fst updated], snd acc ++ [snd updated]).

(** Returns [results] and the [updates] of the metadata object. *)
Definition _updateMany (mapper : Mapper) (records : jsval)
  : M adapter (list (option (list (string * jsval)))
               * list (option (list (string * jsval)))) :=
  items <- iterate records ;;
  foldM (updateMany_step mapper) items ([], []).

Definition _destroy (mapper : Mapper) (id : data)
  : M adapter (unit * option (list (string * jsval))) :=
  _ensureTable fetch mapper ;;;
  let table := _getTable mapper in
  column <- id_column mapper ;;
  let builder := k_delete (where_ (k_table table) column "=" id) in
  result <- execute builder ;;
  r <- defined "meta" result ;;
  ret (tt, meta r).

Definition _destroyAll (fuel : nat) (mapper : Mapper) (query : jsval)
  : M adapter (unit * option (list (string * jsval))) :=
  _ensureTable fetch mapper ;;;
  let table := _getTable mapper in
  let builder := k_delete (k_table table) in
  result <- filtered fuel builder query ;;
  r <- defined "meta" result ;;
  ret (tt, meta r).

Definition _sum (fuel : nat) (mapper : Mapper) (field : string) (query : jsval)
  : M adapter (jsval * option (list (string * jsval))) :=
  _ensureTable fetch mapper ;;;
  let table := _getTable mapper in
  let builder := k_sum (k_table table) (field ++ " as sum") in
  result <- filtered fuel builder query ;;
  r <- defined "results" result ;;
  ret (scalar_or_zero "sum" r, meta r).

End Operations.

End Crud.

(** ** Relating the store to plain data *)

(** [grows h0 m]: run from any store that extends [h0], the computation [m]
    ends, whatever its outcome, in a store that still extends [h0]; no cell
    of [h0] is overwritten or removed. *)
Definition grows {A} (h0 : heap) (m : M heap A) : Prop :=
  forall h, h0 ⊆ h -> h0 ⊆ snd (m h).

(** [denotes h v d]: in the store [h] the value [v] is, at every nesting
    level, the plain data [d]. *)
Inductive denotes (h : heap) : jsval -> data -> Prop :=
| den_undef : denotes h VUndef DUndef
| den_null : denotes h VNull DNull
| den_bool b : denotes h (VBool b) (DBool b)
| den_num n : denotes h (VNum n) (DNum n)
| den_str s : denotes h (VStr s) (DStr s)
| den_arr l vs ds :
    h !! l = Some (Arr vs) ->
    Forall2 (denotes h) vs ds ->
    denotes h (VRef l) (DArr ds)
| den_obj l es ds :
    h !! l = Some (Obj es) ->
    Forall2 (fun e d => fst e = fst d /\ denotes h (snd e) (snd d)) es ds ->
    denotes h (VRef l) (DObj ds).

(** Stored entries and the data entries they denote, key by key. *)
Definition related (hc : heap) (e : string * jsval) (d : string * data) : Prop :=
  fst e = fst d /\ denotes hc (snd e) (snd d).

(** The nesting depth of plain data. *)
Fixpoint depth (d : data) : nat :=
  match d with
  | DArr ds => S (list_max (map depth ds))
  | DObj es => S (list_max (map (fun e => depth (snd e)) es))
  | _ => 0
  end.

(** The four keys [toSql] consumes before it reads the field predicates. *)
Definition reserved (key : string) : bool :=
  existsb (String.eqb key) ["limit"; "offset"; "orderBy"; "where"].

(** [[[name, direction], ...]] *)
Definition order_data (items : list (string * string)) : data :=
  DArr (map (fun item => DArr [DStr (fst item); DStr (snd item)]) items).

(** [{field: {op: value, ...}, ...}] as entries. *)
Definition field_data (fields : list (string * list (string * data)))
  : list (string * data) :=
  map (fun f => (fst f, DObj (snd f))) fields.

(** [renders d q]: the plain object [d] is the abstract query [q], its keys
    in any order: the reserved keys hold the limit, the offset, the ordering
    and the nested query, and the other keys, in their order, are the field
    predicates. *)
Inductive renders : data -> query -> Prop :=
| renders_flat es ob fs :
    lookup_key "orderBy" es = option_map order_data ob ->
    lookup_key "where" es = None ->
    List.filter (fun e => negb (reserved (fst e))) es = field_data fs ->
    renders (DObj es)
      (Query (lookup_key "limit" es) (lookup_key "offset" es) ob None fs)
| renders_nested es ob dw w fs :
    lookup_key "orderBy" es = option_map order_data ob ->
    lookup_key "where" es = Some dw ->
    renders dw w ->
    List.filter (fun e => negb (reserved (fst e))) es = field_data fs ->
    renders (DObj es)
      (Query (lookup_key "limit" es) (lookup_key "offset" es) ob (Some w) fs).

(** ** What a query asks for, in the words of the amended C2 *)

(** The row cap in force: that of the innermost nested [where] that has one,
    else the query's own. *)
Fixpoint effective_limit (q : query) : option data :=
  match q_where q with
  | Some w =>
      match effective_limit w with
      | Some v => Some v
      | None => q_limit q
      end
  | None => q_limit q
  end.

Fixpoint effective_offset (q : query) : option data :=
  match q_where q with
  | Some w =>
      match effective_offset w with
      | Some v => Some v
      | None => q_offset q
      end
  | None => q_offset q
  end.

Definition lowered (order : option (list (string * string))) : list (string * string) :=
  match order with
  | Some items => map (fun item => (fst item, toLowerCase (snd item))) items
  | None => []
  end.

(** The ordering: the query's own items, then those of the nested [where]. *)
Fixpoint effective_order (q : query) : list (string * string) :=
  lowered (q_orderBy q)
  ++ match q_where q with Some w => effective_order w | None => [] end.

(** The predicate a recognized operator stands for. *)
Definition predicate_of (field op : string) (value : data) : list call :=
  if String.eqb op "==" || String.eqb op "===" then [CWhere field "=" value]
  else if String.eqb op "!=" || String.eqb op "!==" then [CWhere field "<>" value]
  else if String.eqb op ">" then [CWhere field ">" value]
  else if String.eqb op ">=" then [CWhere field ">=" value]
  else if String.eqb op "<" then [CWhere field "<" value]
  else if String.eqb op "<=" then [CWhere field "<=" value]
  else if String.eqb op "in" || String.eqb op "contains" then [CWhereIn field value]
  else if String.eqb op "notIn" || String.eqb op "notContains" then [CWhereNotIn field value]
  else [].

Definition field_predicates (fields : list (string * list (string * data)))
  : list call :=
  flat_map (fun f => flat_map (fun c => predicate_of (fst f) (fst c) (snd c)) (snd f))
    fields.

(** The AND-ed predicates: those of the nested [where], then the query's own. *)
Fixpoint effective_predicates (q : query) : list call :=
  match q_where q with Some w => effective_predicates w | None => [] end
  ++ field_predicates (q_fields q).

(** [drops_entry op q q']: [q'] is [q] without one operator entry with key
    [op], taken from a field of [q] or of a [where] nested in it. *)
Inductive drops_entry (op : string) : query -> query -> Prop :=
| drops_here l o ob w fs1 f c1 v c2 fs2 :
    drops_entry op
      (Query l o ob w (fs1 ++ (f, c1 ++ (op, v) :: c2) :: fs2))
      (Query l o ob w (fs1 ++ (f, c1 ++ c2) :: fs2))
| drops_nested l o ob w w' fs :
    drops_entry op w w' ->
    drops_entry op (Query l o ob (Some w) fs) (Query l o ob (Some w') fs).

(** ** Vocabulary of the further properties *)

(** No ASCII capital in the string. *)
Fixpoint no_upper (s : string) : bool :=
  match s with
  | EmptyString => true
  | String c r => negb (is_upper c) && no_upper r
  end.



(** The query with every direction of every [orderBy], nested ones too, in
    lower case. *)
Fixpoint lower_directions (q : query) : query :=
  Query (q_limit q) (q_offset q)
    (match q_orderBy q with
     | Some items => Some (map (fun item => (fst item, toLowerCase (snd item))) items)
     | None => None
     end)
    (match q_where q with
     | Some w => Some (lower_directions w)
     | None => None
     end)
    (q_fields q).

(** How many operator entries of the fields carry a recognized operator. *)
Definition recognized_entries (fields : list (string * list (string * data))) : nat :=
  length (List.filter (fun c => recognized (fst c)) (flat_map snd fields)).

(** The same count over the query and every [where] nested in it. *)
Fixpoint total_recognized (q : query) : nat :=
  recognized_entries (q_fields q)
  + match q_where q with Some w => total_recognized w | None => 0 end.

(** The column a logged predicate is about. *)
Definition predicate_field (c : call) : option string :=
  match c with
  | CWhere field _ _ | CWhereIn field _ | CWhereNotIn field _ => Some field
  | _ => None
  end.

(** A logged call that, if it is a predicate, is about a column that is no
    reserved key. *)
Definition clean (c : call) : Prop :=
  forall field, predicate_field c = Some field -> reserved field = false.





(** [steady a a']: from [a] to [a'] no table left the cache, the requests
    sent are still there in their order, and the option is what it was. *)
Definition steady (a a' : adapter) : Prop :=
  tableCache a ⊆ tableCache a'
  /\ (exists more, sent a' = sent a ++ more)
  /\ autocreateTables a' = autocreateTables a.

(** [quiet a a']: [steady], and every stored object of [a] is in [a'] what it
    was. *)
Definition quiet (a a' : adapter) : Prop :=
  steady a a' /\ store a ⊆ store a'.

(** [keeps R m]: whatever its outcome, [m] takes an adapter to one related to
    it by [R]. *)
Definition keeps {A} (R : adapter -> adapter -> Prop) (m : M adapter A) : Prop :=
  forall a, R a (snd (m a)).

(** *** Sample inputs *)

(** A remote that answers every request with [success: false] and one error
    whose message is the empty string. *)
Definition empty_message_envelope : envelope :=
  Envelope (Some false) [] [ResponseInfo ""].

Definition fetch_empty_message (history : list request) (req : request) : transport :=
  Response empty_message_envelope.

(** A remote that answers every request with [success: true] and the given
    metadata. *)
Definition fetch_meta (m : list (string * jsval)) (history : list request)
  (req : request) : transport :=
  Response (Envelope (Some true) [QueryResult (Some []) (Some m)] []).

(** A remote whose every request fails with a logical error. *)
Definition fetch_failing (history : list request) (req : request) : transport :=
  Response (Envelope (Some false) [] [ResponseInfo "SQL syntax error"]).

(** A stand-in for knex's INSERT statement. *)
Definition insert_stub (tableName : string) (props : obj) : request :=
  Request ("insert into " ++ tableName) [].

(** [new Mapper({name: 'user', idAttribute: 'id'})] *)
Definition user_mapper : Mapper := MkMapper "user" None (Some "id") None.

(** An adapter holding the caller's [{name: 'John Doe'}] at reference 1, with
    nothing cached and nothing sent. *)
Definition fresh_adapter (autocreate : option bool) : adapter :=
  Adapter {[ 1%positive := Obj [("name", VStr "John Doe")] ]} ∅ autocreate [].

(** The same adapter once the table [user] is known to exist. *)
Definition warm_adapter : adapter :=
  Adapter {[ 1%positive := Obj [("name", VStr "John Doe")] ]} {["user"]} (Some true) [].

(** [{limit: 5, where: {limit: 1}}] *)
Definition q_nested_limit : query :=
  Query (Some (DNum 5)) None None (Some (Query (Some (DNum 1)) None None None [])) [].

(** [{limit: 5, where: {}}] *)
Definition q_nested_plain : query :=
  Query (Some (DNum 5)) None None (Some empty_query) [].

(** [{age: {'>=': 18, '~=': 3, '<': 65}}] and the same without ['~=']. *)
Definition q_unrecognized : query :=
  Query None None None None [("age", [(">=", DNum 18); ("~=", DNum 3); ("<", DNum 65)])].

Definition q_recognized : query :=
  Query None None None None [("age", [(">=", DNum 18); ("<", DNum 65)])].

(** A store with the caller's
    [{limit: 5, where: {limit: 1, age: {'>=': 18, '~=': 3, '<': 65}},
      status: {'==': 'active'}, orderBy: [['name', 'ASC']]}] at reference 1. *)
Definition h_nested : heap :=
  list_to_map
    [ (1%positive, Obj [("limit", VNum 5); ("where", VRef 2%positive);
                        ("status", VRef 3%positive); ("orderBy", VRef 5%positive)]);
      (2%positive, Obj [("limit", VNum 1); ("age", VRef 4%positive)]);
      (3%positive, Obj [("==", VStr "active")]);
      (4%positive, Obj [(">=", VNum 18); ("~=", VNum 3); ("<", VNum 65)]);
      (5%positive, Arr [VRef 6%positive]);
      (6%positive, Arr [VStr "name"; VStr "ASC"]) ].

(** [new Mapper({name: 'BlogPost', idAttribute: 'id'})] and an adapter that
    knows its table, holding the caller's [{title: 'Hello'}] at reference 2. *)
Definition post_mapper : Mapper := MkMapper "BlogPost" None (Some "id") None.

Definition post_adapter : adapter :=
  Adapter {[ 2%positive := Obj [("title", VStr "Hello")] ]} {["blog_post"]} (Some true) [].

(** The plain data the caller's query of [h_nested] denotes, and the
    abstract query it renders. *)
Definition d_nested : data :=
  DObj [("limit", DNum 5);
        ("where", DObj [("limit", DNum 1);
                        ("age", DObj [(">=", DNum 18); ("~=", DNum 3); ("<", DNum 65)])]);
        ("status", DObj [("==", DStr "active")]);
        ("orderBy", DArr [DArr [DStr "name"; DStr "ASC"]])].

Definition q_nested : query :=
  Query (Some (DNum 5)) None (Some [("name", "ASC")])
    (Some (Query (Some (DNum 1)) None None None
             [("age", [(">=", DNum 18); ("~=", DNum 3); ("<", DNum 65)])]))
    [("status", [("==", DStr "active")])].

(** The schema of the README's "Schema-Based Table Creation". *)
Definition readme_schema : Schema :=
  MkSchema (Some
    [ ("id", FieldSchema (Some "integer") false false false None);
      ("name", FieldSchema (Some "string") true false false None);
      ("email", FieldSchema (Some "string") false false true None);
      ("age", FieldSchema (Some "integer") false false false None);
      ("active", FieldSchema (Some "boolean") false false false (Some (LBool true)));
      ("created_at", FieldSchema (Some "string") false false false None) ]).

(** The README's "Complex queries":
    [{where: {status: {'==': 'active'}, email: {contains: '@example.com'},
              age: {'>=': 18, '<': 65}},
      orderBy: [['name', 'ASC']], limit: 50, offset: 0}] *)
Definition readme_query : query :=
  Query (Some (DNum 50)) (Some (DNum 0)) (Some [("name", "ASC")])
    (Some (Query None None None None
             [("status", [("==", DStr "active")]);
              ("email", [("contains", DStr "@example.com")]);
              ("age", [(">=", DNum 18); ("<", DNum 65)])]))
    [].

(** Two stores holding [{limit: 10, offset: 20}] and
    [{offset: 20, limit: 10}] at reference 1. *)
Definition h_limit_offset : heap :=
  {[ 1%positive := Obj [("limit", VNum 10); ("offset", VNum 20)] ]}.

Definition h_offset_limit : heap :=
  {[ 1%positive := Obj [("offset", VNum 20); ("limit", VNum 10)] ]}.

Definition q_page : query := Query (Some (DNum 10)) (Some (DNum 20)) None None [].

(** [{orderBy: [['name', 'ASC']]}] and [{orderBy: [['name', 'asc']]}] *)
Definition q_order_upper : query := Query None None (Some [("name", "ASC")]) None [].
Definition q_order_lower : query := Query None None (Some [("name", "asc")]) None [].

(** A knex stand-in that keeps the table, the statement kind and the calls
    made, and prints them as the text of the request. *)
Record sketch := Sketch {
  sk_table : string;
  sk_kind : string;
  sk_calls : list call
}.

#[export] Instance sketch_builder : QueryBuilder sketch := {
  limit b v := Sketch (sk_table b) (sk_kind b) (sk_calls b ++ [CLimit v]);
  offset b v := Sketch (sk_table b) (sk_kind b) (sk_calls b ++ [COffset v]);
  orderBy b c d := Sketch (sk_table b) (sk_kind b) (sk_calls b ++ [COrderBy c d]);
  where_ b f o v := Sketch (sk_table b) (sk_kind b) (sk_calls b ++ [CWhere f o v]);
  whereIn b f v := Sketch (sk_table b) (sk_kind b) (sk_calls b ++ [CWhereIn f v]);
  whereNotIn b f v := Sketch (sk_table b) (sk_kind b) (sk_calls b ++ [CWhereNotIn f v])
}.

#[export] Instance sketch_knex : Knex sketch := {
  k_table t := Sketch t "" [];
  k_count b column := Sketch (sk_table b) ("count " ++ column) (sk_calls b);
  k_select b column := Sketch (sk_table b) ("select " ++ column) (sk_calls b);
  k_sum b column := Sketch (sk_table b) ("sum " ++ column) (sk_calls b);
  k_insert b h props := Sketch (sk_table b) "insert" (sk_calls b);
  k_update b h props := Sketch (sk_table b) "update" (sk_calls b);
  k_delete b := Sketch (sk_table b) "delete" (sk_calls b);
  toSQL b :=
    Request (sk_kind b ++ " " ++ sk_table b
             ++ (if (length (sk_calls b) =? 0)%nat then "" else " where ..."))
      []
}.

(** [utils.get] on a stored object without nested paths. *)
Definition get_stub (h : heap) (record : jsval) (path : option string) : data :=
  match record, path with
  | VRef l, Some key =>
      match h !! l with
      | Some (Obj entries) =>
          match get_prop key entries with
          | Some (VNum n) => DNum n
          | Some (VStr s) => DStr s
          | _ => DUndef
          end
      | _ => DUndef
      end
  | _, _ => DUndef
  end.

(** A remote that answers a select with one row [{id: 7, name: 'Ann',
    count: 3}] and anything else with metadata [{changes: 1}]. *)
Definition rows_result : queryResult :=
  QueryResult (Some [[("id", VNum 7); ("name", VStr "Ann"); ("count", VNum 3)]])
    (Some [("changes", VNum 1)]).

Definition fetch_rows (history : list request) (req : request) : transport :=
  Response (Envelope (Some true) [rows_result] []).



(** A remote that lists the tables [user] and [blog_post]. *)
Definition fetch_catalog (history : list request) (req : request) : transport :=
  Response (Envelope (Some true)
    [QueryResult (Some [[("name", VStr "user")]; [("name", VStr "blog_post")]])
       (Some [])] []).

(** A remote that accepts the first request sent to it and rejects the
    others. *)
Definition fetch_first_only (history : list request) (req : request) : transport :=
  match history with
  | [] => Response (Envelope (Some true) [QueryResult (Some []) (Some [])] [])
  | _ => NetworkError "connection reset"
  end.

(** An adapter that knows the table [user] and holds the caller's records
    [{id: 1, name: 'a'}] and [{id: 2, name: 'b'}] at 1 and 2 and the array of
    both at 3. *)
Definition records_adapter : adapter :=
  Adapter
    (list_to_map
       [ (1%positive, Obj [("id", VNum 1); ("name", VStr "a")]);
         (2%positive, Obj [("id", VNum 2); ("name", VStr "b")]);
         (3%positive, Arr [VRef 1%positive; VRef 2%positive]) ])
    {["user"]} (Some true) [].

(** * Properties *)

(** ** Schema compiler *)

Section SchemaFacts.
Variable idAttr : string.

Lemma fold_column_step_nonempty (props : list (string * fieldSchema)) (columns : list string) :
  columns <> [] ->
  fold_left (column_step idAttr) props columns =
  columns ++ map (fun e => columnDef idAttr (fst e) (snd e))
               (List.filter (fun e => negb (String.eqb (fst e) idAttr)) props).
Proof.
  revert columns.
  induction props as [|[k fs] rest IH]; intros columns Hne; simpl.
  - by rewrite app_nil_r.
  - destruct columns as [|c cs]; [done|].
    destruct (String.eqb k idAttr) eqn:Hk; simpl.
    + by apply IH.
    + rewrite IH by done.
      simpl. f_equal. by rewrite <- app_assoc.
Qed.

End SchemaFacts.

(** When the id attribute is declared in the schema after another property,
    the loop skips it: the column list holds the other properties only. *)
Lemma columns_of_declared_id_not_first (mapper : Mapper) k fs rest d :
  resolved_properties mapper = (k, fs) :: rest ->
  String.eqb k (resolved_idAttribute mapper) = false ->
  lookup_key (resolved_idAttribute mapper) rest = Some d ->
  columns_of mapper =
  map (fun e => columnDef (resolved_idAttribute mapper) (fst e) (snd e))
    (List.filter (fun e => negb (String.eqb (fst e) (resolved_idAttribute mapper)))
       ((k, fs) :: rest)).
Proof.
  intros Hprops Hk Hid. unfold columns_of. rewrite Hprops. simpl.
  rewrite Hk, Hid. simpl.
  rewrite fold_column_step_nonempty by done. simpl.
  reflexivity.
Qed.

(** When the id attribute is the first declared property, its column comes
    first and carries the primary-key constraint. *)
Lemma columns_of_declared_id_first (mapper : Mapper) fs rest :
  resolved_properties mapper = (resolved_idAttribute mapper, fs) :: rest ->
  exists others,
    columns_of mapper =
    (resolved_idAttribute mapper ++ columnType (type fs)
       ++ " PRIMARY KEY AUTOINCREMENT"
       ++ (if required fs || notNull fs then " NOT NULL" else "")
       ++ (if unique fs then " UNIQUE" else "")
       ++ defaultClause (default fs))%string :: others.
Proof.
  intros Hprops. unfold columns_of. rewrite Hprops. simpl.
  rewrite String.eqb_refl. simpl.
  rewrite fold_column_step_nonempty by done. simpl.
  unfold columnDef at 1. rewrite String.eqb_refl. eauto.
Qed.

(** The DDL the README announces for its schema. *)
Example createTableSql_readme :
  createTableSql (MkMapper "user" None (Some "id") (Some readme_schema)) "user"
  = "CREATE TABLE IF NOT EXISTS user (id INTEGER PRIMARY KEY AUTOINCREMENT, name TEXT NOT NULL, email TEXT UNIQUE, age INTEGER, active INTEGER DEFAULT true, created_at TEXT)".
Proof. reflexivity. Qed.

Example underscore_UserProfile : underscore "UserProfile" = "user_profile".
Proof. reflexivity. Qed.

(** C1: the schema declares [name] and then the id attribute [id]; the DDL
    the compiler produces has no column for [id] at all, hence no PRIMARY KEY
    AUTOINCREMENT column, although the claim promises one wherever the id
    attribute is declared. *)
Theorem createTableSql_id_declared_last :
  createTableSql id_last_mapper "t" = "CREATE TABLE IF NOT EXISTS t (name TEXT)".
Proof. reflexivity. Qed.

(** C6: the scenario schema compiles to the exact DDL of the specification,
    and a mapper with no schema, no properties or empty properties compiles
    to a table with the single synthesized id column. *)
Theorem createTableSql_scenario_and_empty_schema :
  (forall name table,
     createTableSql (MkMapper name table (Some "id") (Some scenario_schema)) "t"
     = "CREATE TABLE IF NOT EXISTS t (id INTEGER PRIMARY KEY AUTOINCREMENT, name TEXT NOT NULL, email TEXT UNIQUE)")
  /\ (forall name table idAttr tableName,
        let ddl := ("CREATE TABLE IF NOT EXISTS " ++ tableName ++ " ("
                    ++ (or_else idAttr "_id" ++ " INTEGER PRIMARY KEY AUTOINCREMENT")
                    ++ ")")%string in
        createTableSql (MkMapper name table idAttr None) tableName = ddl
        /\ createTableSql (MkMapper name table idAttr (Some (MkSchema None))) tableName = ddl
        /\ createTableSql (MkMapper name table idAttr (Some (MkSchema (Some [])))) tableName = ddl).
Proof.
  split; [reflexivity|].
  intros. repeat split; reflexivity.
Qed.

(** ** Remote execution and the table registry *)

Section AdapterFacts.
Variable fetch : list request -> request -> transport.
Variable insertSQL : string -> obj -> request.

(** What one remote call returns and leaves behind. *)
Lemma executeSQL_run (q : string) (ps : list jsval) (a : adapter) :
  _executeSQL fetch q ps a =
  (match fetch (sent a) (Request q ps) with
   | NetworkError msg => Throw msg
   | Response resp =>
       if negb (truthy_flag (success resp)) then Throw (error_message resp)
       else Ok (head (result resp))
   end, record_request (Request q ps) a).
Proof.
  unfold _executeSQL, bind, HTTP. simpl.
  destruct (fetch _ _) as [msg|resp]; [done|].
  by destruct (negb _).
Qed.

(** A cached table: the call returns at once and changes nothing. *)
Lemma ensureTable_cached (mapper : Mapper) (a : adapter) :
  _getTable mapper ∈ tableCache a ->
  _ensureTable fetch mapper a = (Ok tt, a).
Proof.
  intros Hin. unfold _ensureTable, bind, get_state. simpl.
  by rewrite decide_True.
Qed.

(** An uncached table with auto-creation on: one remote call with the DDL. *)
Lemma ensureTable_uncached (mapper : Mapper) (a : adapter) :
  _getTable mapper ∉ tableCache a ->
  truthy_flag (autocreateTables a) = true ->
  _ensureTable fetch mapper a =
  let ddl := Request (createTableSql mapper (_getTable mapper)) [] in
  match fst (_executeSQL fetch (sql ddl) (params ddl) a) with
  | Ok _ => (Ok tt, with_cached (_getTable mapper) (record_request ddl a))
  | Throw msg => (Throw msg, record_request ddl a)
  | Stuck => (Stuck, record_request ddl a)
  end.
Proof.
  intros Hnin Hauto. unfold _ensureTable, bind at 1, get_state. simpl.
  rewrite decide_False by done. rewrite Hauto. simpl.
  unfold bind. rewrite executeSQL_run. simpl.
  destruct (fetch _ _) as [msg|resp]; [done|].
  by destruct (negb _).
Qed.

Lemma repeat_ensureTable_cached (mapper : Mapper) (a : adapter) (n : nat) :
  _getTable mapper ∈ tableCache a ->
  repeatM n (_ensureTable fetch mapper) a = (Ok (repeat tt n), a).
Proof.
  intros Hin. induction n as [|n IH]; [done|].
  simpl. unfold bind at 1. rewrite ensureTable_cached by done.
  unfold bind at 1. by rewrite IH.
Qed.

End AdapterFacts.

(** C3: with auto-creation enabled and the table uncached, if the remote
    accepts the DDL then the first call sends exactly that one CREATE TABLE
    request and caches the name, and any number of further calls in sequence
    return with no further request; if the remote call fails (transport error
    or [success: false]) the error propagates and the cache is unchanged. *)
Theorem ensureTable_provisions_once
  (fetch : list request -> request -> transport) (mapper : Mapper) (a : adapter) :
  _getTable mapper ∉ tableCache a ->
  truthy_flag (autocreateTables a) = true ->
  let tableName := _getTable mapper in
  let ddl := Request (createTableSql mapper tableName) [] in
  (forall resp,
     fetch (sent a) ddl = Response resp ->
     success resp = Some true ->
     let a1 := with_cached tableName (record_request ddl a) in
     _ensureTable fetch mapper a = (Ok tt, a1)
     /\ sent a1 = sent a ++ [ddl]
     /\ tableCache a1 = {[tableName]} ∪ tableCache a
     /\ forall n, repeatM n (_ensureTable fetch mapper) a1 = (Ok (repeat tt n), a1))
  /\ (forall msg,
        fetch (sent a) ddl = NetworkError msg ->
        _ensureTable fetch mapper a = (Throw msg, record_request ddl a)
        /\ tableCache (record_request ddl a) = tableCache a)
  /\ (forall resp,
        fetch (sent a) ddl = Response resp ->
        truthy_flag (success resp) = false ->
        _ensureTable fetch mapper a = (Throw (error_message resp), record_request ddl a)
        /\ tableCache (record_request ddl a) = tableCache a).
Proof.
  intros Hnin Hauto tableName ddl.
  pose proof (ensureTable_uncached fetch mapper a Hnin Hauto) as Hrun.
  cbv zeta in Hrun. rewrite executeSQL_run in Hrun. simpl in Hrun.
  fold tableName in Hrun. fold ddl in Hrun.
  split; [|split].
  - intros resp Hresp Hsucc a1. rewrite Hresp, Hsucc in Hrun.
    repeat split; [done|].
    intros n. apply repeat_ensureTable_cached. simpl. set_solver.
  - intros msg Hresp. by rewrite Hresp in Hrun.
  - intros resp Hresp Hsucc. by rewrite Hresp, Hsucc in Hrun.
Qed.

(** C8: with auto-creation disabled and the table uncached, the call fails
    with "Table <tableName> not found" and leaves the adapter as it was: no
    request sent, cache unchanged. *)
Theorem ensureTable_autocreate_disabled
  (fetch : list request -> request -> transport) (mapper : Mapper) (a : adapter) :
  _getTable mapper ∉ tableCache a ->
  truthy_flag (autocreateTables a) = false ->
  _ensureTable fetch mapper a
  = (Throw ("Table " ++ _getTable mapper ++ " not found"), a).
Proof.
  intros Hnin Hauto. unfold _ensureTable, bind, get_state. simpl.
  rewrite decide_False by done. by rewrite Hauto.
Qed.

Lemma ensureTable_provisions_once_witness :
  _ensureTable (fetch_meta []) user_mapper (fresh_adapter (Some true))
  = (Ok tt,
     Adapter {[ 1%positive := Obj [("name", VStr "John Doe")] ]} ({["user"]} ∪ ∅)
       (Some true)
       [Request "CREATE TABLE IF NOT EXISTS user (id INTEGER PRIMARY KEY AUTOINCREMENT)" []]).
Proof.
  assert (Hnin : _getTable user_mapper ∉ tableCache (fresh_adapter (Some true)))
    by (simpl; apply not_elem_of_empty).
  destruct (ensureTable_provisions_once (fetch_meta []) user_mapper
              (fresh_adapter (Some true)) Hnin eq_refl) as [Hok _].
  destruct (Hok _ eq_refl eq_refl) as [Hrun _].
  exact Hrun.
Defined.

Lemma ensureTable_autocreate_disabled_witness :
  _ensureTable (fetch_meta []) user_mapper (fresh_adapter (Some false))
  = (Throw "Table user not found", fresh_adapter (Some false)).
Proof.
  apply (ensureTable_autocreate_disabled (fetch_meta []) user_mapper
           (fresh_adapter (Some false))).
  - simpl. apply not_elem_of_empty.
  - reflexivity.
Defined.

(** C4 as stated fails: the envelope has [success: false] and a first error
    whose message is the empty string; the call fails with "Unknown error",
    not with that entry's message. *)
Lemma executeSQL_empty_message_counterexample :
  success empty_message_envelope = Some false
  /\ errors empty_message_envelope = [ResponseInfo ""]
  /\ fst (_executeSQL fetch_empty_message "INVALID SQL" [] (fresh_adapter None))
     = Throw "Unknown error"
  /\ fst (_executeSQL fetch_empty_message "INVALID SQL" [] (fresh_adapter None))
     <> Throw (message (ResponseInfo "")).
Proof.
  split; [reflexivity|]. split; [reflexivity|]. split; [reflexivity|].
  vm_compute. discriminate.
Qed.

(** C4 (amended): for an envelope with [success: false] the call fails with
    the message of the first entry of [errors] when that message is not
    empty, and with "Unknown error" when [errors] is empty or the first
    message is empty; for an envelope with [success: true] it returns the
    first element of [result] ([undefined] when there is none). *)
Theorem executeSQL_envelope
  (fetch : list request -> request -> transport)
  (q : string) (ps : list jsval) (a : adapter) (resp : envelope) :
  fetch (sent a) (Request q ps) = Response resp ->
  (success resp = Some false ->
     (errors resp = [] -> fst (_executeSQL fetch q ps a) = Throw "Unknown error")
     /\ (forall e rest, errors resp = e :: rest -> message e <> "" ->
           fst (_executeSQL fetch q ps a) = Throw (message e))
     /\ (forall e rest, errors resp = e :: rest -> message e = "" ->
           fst (_executeSQL fetch q ps a) = Throw "Unknown error"))
  /\ (success resp = Some true ->
        fst (_executeSQL fetch q ps a) = Ok (head (result resp))).
Proof.
  intros Hresp. rewrite executeSQL_run, Hresp. simpl.
  split.
  - intros ->. simpl. unfold error_message. repeat split.
    + by intros ->.
    + intros e rest -> Hne. destruct (message e); [done|reflexivity].
    + by intros e rest -> ->.
  - by intros ->.
Qed.

Lemma executeSQL_envelope_witness :
  fst (_executeSQL fetch_failing "INVALID SQL" [] (fresh_adapter None))
  = Throw "SQL syntax error"
  /\ fst (_executeSQL (fetch_meta [("rows_read", VNum 1)]) "SELECT * FROM users" []
            (fresh_adapter None))
     = Ok (Some (QueryResult (Some []) (Some [("rows_read", VNum 1)]))).
Proof.
  split.
  - destruct (executeSQL_envelope fetch_failing "INVALID SQL" [] (fresh_adapter None)
                _ eq_refl) as [Hfail _].
    destruct (Hfail eq_refl) as (_ & Hfirst & _).
    apply (Hfirst (ResponseInfo "SQL syntax error") [] eq_refl). discriminate.
  - destruct (executeSQL_envelope (fetch_meta [("rows_read", VNum 1)])
                "SELECT * FROM users" [] (fresh_adapter None) _ eq_refl) as [_ Hok].
    apply (Hok eq_refl).
Defined.

(** ** The store: what a computation may change *)

Section Grows.
Variable h0 : heap.

Lemma grows_ret {A} (a : A) : grows h0 (ret a).
Proof. by intros h Hh. Qed.

Lemma grows_throw {A} msg : grows h0 (throw (A := A) msg).
Proof. by intros h Hh. Qed.

Lemma grows_stuck {A} : grows h0 (stuck (A := A)).
Proof. by intros h Hh. Qed.

(** The continuation may rely on how its argument was produced. *)
Lemma grows_bind_ok {A C} (m : M heap A) (k : A -> M heap C) :
  grows h0 m ->
  (forall h a h', h0 ⊆ h -> m h = (Ok a, h') -> grows h0 (k a)) ->
  grows h0 (bind m k).
Proof.
  intros Hm Hk h Hh. unfold bind.
  specialize (Hm h Hh). specialize (Hk h).
  destruct (m h) as [[a|msg|] h']; simpl in *; [|done..].
  by eapply Hk.
Qed.

Lemma grows_bind {A C} (m : M heap A) (k : A -> M heap C) :
  grows h0 m -> (forall a, grows h0 (k a)) -> grows h0 (bind m k).
Proof. intros Hm Hk. apply grows_bind_ok; auto. Qed.

Lemma grows_read l : grows h0 (Store.read l).
Proof. intros h Hh. unfold Store.read. by destruct (h !! l). Qed.

Lemma grows_alloc o : grows h0 (Store.alloc o).
Proof.
  intros h Hh. unfold Store.alloc. simpl.
  etrans; [exact Hh|]. apply insert_subseteq.
  apply not_elem_of_dom, is_fresh.
Qed.

Lemma grows_write l o : h0 !! l = None -> grows h0 (Store.write l o).
Proof. intros Hl h Hh. simpl. by apply insert_subseteq_r. Qed.

Lemma grows_read_props l : grows h0 (Store.read_props l).
Proof.
  apply grows_bind; [apply grows_read|].
  intros [?|?]; [apply grows_ret|apply grows_stuck].
Qed.

Lemma grows_get_key l key : grows h0 (Store.get_key l key).
Proof. apply grows_bind; [apply grows_read_props|]. intros. apply grows_ret. Qed.

Lemma grows_delete_key l key : h0 !! l = None -> grows h0 (Store.delete_key l key).
Proof.
  intros Hl. apply grows_bind; [apply grows_read_props|].
  intros. by apply grows_write.
Qed.

Lemma grows_mapM {X Y} (f : X -> M heap Y) (xs : list X) :
  (forall x, grows h0 (f x)) -> grows h0 (mapM f xs).
Proof.
  intros Hf. induction xs as [|x xs IH]; simpl; [apply grows_ret|].
  apply grows_bind; [done|]. intros y.
  apply grows_bind; [done|]. intros ys. apply grows_ret.
Qed.

Lemma grows_foldM {A X} (f : A -> X -> M heap A) (xs : list X) (acc : A) :
  (forall a x, grows h0 (f a x)) -> grows h0 (foldM f xs acc).
Proof.
  intros Hf. revert acc. induction xs as [|x xs IH]; intros acc; simpl;
    [apply grows_ret|].
  apply grows_bind; [done|]. intros acc'. apply IH.
Qed.

Lemma grows_plainCopy fuel v : grows h0 (Store.plainCopy fuel v).
Proof.
  revert v. induction fuel as [|fuel IH]; intros v; simpl; [apply grows_stuck|].
  destruct v; try apply grows_ret.
  apply grows_bind; [apply grows_read|]. intros [entries|elems].
  - apply grows_bind.
    + apply grows_mapM. intros e. apply grows_bind; [apply IH|].
      intros. apply grows_ret.
    + intros. apply grows_bind; [apply grows_alloc|]. intros. apply grows_ret.
  - apply grows_bind; [by apply grows_mapM|].
    intros. apply grows_bind; [apply grows_alloc|]. intros. apply grows_ret.
Qed.

Lemma grows_reify fuel v : grows h0 (Store.reify fuel v).
Proof.
  revert v. induction fuel as [|fuel IH]; intros v; simpl; [apply grows_stuck|].
  destruct v; try apply grows_ret.
  apply grows_bind; [apply grows_read|]. intros [entries|elems].
  - apply grows_bind; [|intros; apply grows_ret].
    apply grows_mapM. intros e. apply grows_bind; [apply IH|].
    intros. apply grows_ret.
  - apply grows_bind; [by apply grows_mapM|]. intros. apply grows_ret.
Qed.

End Grows.

(** The reference a copy returns was not in use before the copy. *)
Lemma plainCopy_fresh fuel v h l' h' :
  Store.plainCopy fuel v h = (Ok (VRef l'), h') -> h !! l' = None.
Proof.
  destruct fuel as [|fuel]; [done|]. simpl.
  destruct v as [| | | | |l]; try done.
  unfold bind at 1. unfold Store.read.
  destruct (h !! l) as [[entries|elems]|] eqn:Hl; [| |done].
  - unfold bind at 1.
    pose proof (grows_mapM h _ entries
      (fun e => grows_bind h _ _ (grows_plainCopy h fuel (snd e))
                  (fun w => grows_ret h (fst e, w))) h (reflexivity h)) as Hsub.
    destruct (mapM _ entries h) as [[es'|?|] hm]; [|done..].
    simpl in Hsub. unfold bind, Store.alloc, ret. simpl.
    intros [= <- <-].
    pose proof (is_fresh (dom hm)) as Hfresh.
    apply not_elem_of_dom in Hfresh.
    eapply lookup_weaken_None; eauto.
  - unfold bind at 1.
    pose proof (grows_mapM h _ elems (grows_plainCopy h fuel) h (reflexivity h)) as Hsub.
    destruct (mapM _ elems h) as [[es'|?|] hm]; [|done..].
    simpl in Hsub. unfold bind, Store.alloc, ret. simpl.
    intros [= <- <-].
    pose proof (is_fresh (dom hm)) as Hfresh.
    apply not_elem_of_dom in Hfresh.
    eapply lookup_weaken_None; eauto.
Qed.

Section GrowsCompile.
Context {B : Type} `{QueryBuilder B}.
Variable h0 : heap.

Lemma grows_entries_of_cond cond : grows h0 (Store.entries_of_cond cond).
Proof.
  destruct cond; simpl; try apply grows_ret; try apply grows_throw.
  apply grows_bind; [apply grows_read|]. intros [?|?]; apply grows_ret.
Qed.

Lemma grows_orderBy_items v : grows h0 (Store.orderBy_items v).
Proof.
  destruct v as [| | | |s|l]; simpl; try apply grows_throw.
  - destruct s; [apply grows_ret|apply grows_throw].
  - apply grows_bind; [apply grows_read|].
    intros [?|?]; [apply grows_throw|apply grows_ret].
Qed.

Lemma grows_orderBy_step (builder : B) item :
  grows h0 (Store.orderBy_step builder item).
Proof.
  destruct item as [| | | |s|l]; simpl;
    try apply grows_throw; try apply grows_stuck.
  apply grows_bind; [apply grows_read|].
  intros [?|elems]; [apply grows_throw|].
  unfold Store.destructure_pair.
  destruct (nth 0 elems VUndef), (nth 1 elems VUndef);
    try apply grows_throw; try apply grows_stuck; apply grows_ret.
Qed.

Lemma grows_field_step fuel q (builder : B) e :
  h0 !! q = None -> grows h0 (Store.field_step fuel q builder e).
Proof.
  intros Hq. apply grows_bind; [by apply grows_delete_key|]. intros _.
  apply grows_bind; [apply grows_entries_of_cond|]. intros cond.
  apply grows_bind; [|intros; apply grows_ret].
  apply grows_mapM. intros c.
  apply grows_bind; [apply grows_reify|]. intros. apply grows_ret.
Qed.

Lemma grows_value_phase fuel q key method (builder : B) :
  h0 !! q = None -> grows h0 (Store.value_phase fuel q key method builder).
Proof.
  intros Hq. apply grows_bind; [apply grows_get_key|]. intros [v|]; [|apply grows_ret].
  apply grows_bind; [apply grows_reify|]. intros.
  apply grows_bind; [by apply grows_delete_key|]. intros. apply grows_ret.
Qed.

Lemma grows_orderBy_phase q (builder : B) :
  h0 !! q = None -> grows h0 (Store.orderBy_phase q builder).
Proof.
  intros Hq. apply grows_bind; [apply grows_get_key|]. intros [v|]; [|apply grows_ret].
  apply grows_bind; [apply grows_orderBy_items|]. intros items.
  apply grows_bind; [apply grows_foldM; apply grows_orderBy_step|]. intros.
  apply grows_bind; [by apply grows_delete_key|]. intros. apply grows_ret.
Qed.

Lemma grows_fields_phase fuel q (builder : B) :
  h0 !! q = None -> grows h0 (Store.fields_phase fuel q builder).
Proof.
  intros Hq. apply grows_bind; [apply grows_read_props|]. intros entries.
  apply grows_foldM. intros. by apply grows_field_step.
Qed.

Lemma grows_toSql fuel (builder : B) query :
  grows h0 (Store.toSql fuel builder query).
Proof.
  revert builder query.
  induction fuel as [|fuel IH]; intros builder query; [apply grows_stuck|].
  cbn [Store.toSql].
  apply grows_bind_ok; [apply grows_plainCopy|].
  intros h copy h' Hh Hcopy.
  destruct copy as [| | | | |q]; try apply grows_throw.
  assert (Hq : h0 !! q = None).
  { apply plainCopy_fresh in Hcopy. eapply lookup_weaken_None; eauto. }
  apply grows_bind; [by apply grows_value_phase|]. intros b1.
  apply grows_bind; [by apply grows_value_phase|]. intros b2.
  apply grows_bind; [by apply grows_orderBy_phase|]. intros b3.
  apply grows_bind; [apply grows_get_key|]. intros present.
  apply grows_bind; [|intros; by apply grows_fields_phase].
  destruct present; [|apply grows_ret].
  apply grows_bind; [apply IH|]. intros.
  apply grows_bind; [by apply grows_delete_key|]. intros. apply grows_ret.
Qed.

End GrowsCompile.

(** ** Plain data in a growing store *)

Lemma data_ind' (P : data -> Prop) :
  P DUndef -> P DNull -> (forall b, P (DBool b)) -> (forall n, P (DNum n)) ->
  (forall s, P (DStr s)) ->
  (forall ds, Forall P ds -> P (DArr ds)) ->
  (forall es, Forall (fun e => P (snd e)) es -> P (DObj es)) ->
  forall d, P d.
Proof.
  intros Hu Hn Hb Hz Hs Ha Ho. fix IH 1.
  intros [| |b|n|s|ds|es].
  - exact Hu.
  - exact Hn.
  - apply Hb.
  - apply Hz.
  - apply Hs.
  - apply Ha. induction ds as [|d ds IHds]; constructor; [apply IH|exact IHds].
  - apply Ho. induction es as [|[k d] es IHes]; constructor; [apply IH|exact IHes].
Qed.

(** Plain data stays what it is when the store grows. *)
Lemma denotes_mono (h h' : heap) v d :
  h ⊆ h' -> denotes h v d -> denotes h' v d.
Proof.
  intros Hsub. revert v.
  induction d as [| | | | |ds IH|ds IH] using data_ind'; intros v Hd;
    inversion Hd as [| | | | |l vs ? Hl Hall|l es ? Hl Hall]; subst;
    try constructor.
  - econstructor; [by eapply lookup_weaken|].
    clear Hd Hl. induction Hall as [|v d vs ds Hv _ IHall];
      inversion IH; subst; constructor; auto.
  - econstructor; [by eapply lookup_weaken|].
    clear Hd Hl. induction Hall as [|e d es ds [Hk He] _ IHall];
      inversion IH; subst; constructor; auto.
Qed.

(** ** The compiler on the store computes what the compiler on contents does *)

Lemma depth_elem (d : data) (ds : list data) :
  In d ds -> depth d < depth (DArr ds).
Proof.
  intros Hin. simpl. apply Nat.lt_succ_r.
  induction ds as [|d' ds IH]; [done|]. simpl.
  destruct Hin as [->|Hin]; [lia|]. specialize (IH Hin). lia.
Qed.

Lemma depth_entry (k : string) (d : data) (es : list (string * data)) :
  In (k, d) es -> depth d < depth (DObj es).
Proof.
  intros Hin. simpl. apply Nat.lt_succ_r.
  induction es as [|[k' d'] es IH]; [done|]. simpl.
  destruct Hin as [[= -> ->]|Hin]; [lia|]. specialize (IH Hin). lia.
Qed.

Lemma lookup_key_In {A} (key : string) (es : list (string * A)) (a : A) :
  lookup_key key es = Some a -> In (key, a) es.
Proof.
  induction es as [|[k v] es IH]; simpl; [done|].
  destruct (String.eqb_spec k key) as [->|Hne].
  - intros [= ->]. by left.
  - intros Hl. right. by apply IH.
Qed.

Section ReifyFacts.
Variable fuel : nat.
Hypothesis reify_fuel :
  forall d v h, depth d < fuel -> denotes h v d -> Store.reify fuel v h = (Ok d, h).

Lemma mapM_reify_elems h vs ds :
  Forall2 (denotes h) vs ds ->
  (forall d, In d ds -> depth d < fuel) ->
  mapM (Store.reify fuel) vs h = (Ok ds, h).
Proof.
  induction 1 as [|v d vs ds Hv _ IH]; intros Hdepth; [done|].
  simpl. unfold bind at 1.
  rewrite (reify_fuel d v h) by (auto using in_eq).
  unfold bind at 1. rewrite IH by (auto using in_cons). done.
Qed.

Lemma mapM_reify_entries h (es : list (string * jsval)) (ds : list (string * data)) :
  Forall2 (fun e d => fst e = fst d /\ denotes h (snd e) (snd d)) es ds ->
  (forall k d, In (k, d) ds -> depth d < fuel) ->
  mapM (fun e => bind (Store.reify fuel (snd e)) (fun d => ret (fst e, d))) es h
  = (Ok ds, h).
Proof.
  induction 1 as [|[k v] [k' d] es ds [Hk Hv] _ IH]; intros Hdepth; [done|].
  simpl in *. subst k'. unfold bind at 1. unfold bind at 1.
  rewrite (reify_fuel d v h) by (eauto using in_eq).
  unfold ret at 1. unfold bind at 1. rewrite IH by (eauto using in_cons). done.
Qed.

End ReifyFacts.

(** Reading plain data off the store gives the data it denotes. *)
Lemma reify_denotes fuel d v h :
  depth d < fuel -> denotes h v d -> Store.reify fuel v h = (Ok d, h).
Proof.
  revert d v h. induction fuel as [|fuel IH]; intros d v h Hfuel Hd; [lia|].
  inversion Hd as [| | | | |l vs ds Hl Hall|l es ds Hl Hall]; subst; try done.
  - simpl. unfold bind at 1, Store.read. rewrite Hl.
    unfold bind. rewrite (mapM_reify_elems fuel IH h vs ds Hall); [done|].
    intros d Hin. apply depth_elem in Hin. lia.
  - simpl. unfold bind at 1, Store.read. rewrite Hl.
    unfold bind at 1. rewrite (mapM_reify_entries fuel IH h es ds Hall); [done|].
    intros k d Hin. apply depth_entry in Hin. lia.
Qed.

Lemma alloc_fresh (h : heap) : h !! fresh (dom h) = None.
Proof. apply not_elem_of_dom, is_fresh. Qed.

Lemma denotes_entries_mono (h h' : heap)
  (es : list (string * jsval)) (ds : list (string * data)) :
  h ⊆ h' ->
  Forall2 (fun e d => fst e = fst d /\ denotes h (snd e) (snd d)) es ds ->
  Forall2 (fun e d => fst e = fst d /\ denotes h' (snd e) (snd d)) es ds.
Proof.
  intros Hsub Hall. eapply Forall2_impl; [exact Hall|].
  intros e d [Hk Hd]. split; [done|]. by eapply denotes_mono.
Qed.

Section CopyFacts.
Variable fuel : nat.
Hypothesis copy_fuel :
  forall d v h, depth d < fuel -> denotes h v d ->
    exists v' h', Store.plainCopy fuel v h = (Ok v', h') /\ h ⊆ h' /\ denotes h' v' d.

Lemma mapM_copy_elems vs : forall ds h,
  Forall2 (denotes h) vs ds ->
  (forall d, In d ds -> depth d < fuel) ->
  exists vs' h', mapM (Store.plainCopy fuel) vs h = (Ok vs', h')
    /\ h ⊆ h' /\ Forall2 (denotes h') vs' ds.
Proof.
  induction vs as [|v vs IH]; intros ds h Hall Hdepth;
    inversion Hall as [|? d ? ds' Hv Hrest]; subst.
  - exists [], h. by repeat split.
  - destruct (copy_fuel d v h) as (v' & h1 & Hcopy & Hsub1 & Hv');
      [auto using in_eq|done|].
    destruct (IH ds' h1) as (vs' & h2 & Hmap & Hsub2 & Hvs').
    { eapply Forall2_impl; [exact Hrest|]. intros. by eapply denotes_mono. }
    { auto using in_cons. }
    exists (v' :: vs'), h2. simpl. unfold bind at 1. rewrite Hcopy.
    unfold bind at 1. rewrite Hmap. repeat split.
    + by etrans.
    + constructor; [by eapply denotes_mono|done].
Qed.

Lemma mapM_copy_entries (es : list (string * jsval)) :
  forall (ds : list (string * data)) h,
  Forall2 (fun e d => fst e = fst d /\ denotes h (snd e) (snd d)) es ds ->
  (forall k d, In (k, d) ds -> depth d < fuel) ->
  exists es' h',
    mapM (fun e => bind (Store.plainCopy fuel (snd e)) (fun w => ret (fst e, w))) es h
    = (Ok es', h')
    /\ h ⊆ h'
    /\ Forall2 (fun e d => fst e = fst d /\ denotes h' (snd e) (snd d)) es' ds.
Proof.
  induction es as [|[k v] es IH]; intros ds h Hall Hdepth;
    inversion Hall as [|? [k' d] ? ds' [Hk Hv] Hrest]; subst.
  - exists [], h. by repeat split.
  - simpl in Hk, Hv. subst k'.
    destruct (copy_fuel d v h) as (v' & h1 & Hcopy & Hsub1 & Hv');
      [eauto using in_eq|done|].
    destruct (IH ds' h1) as (es' & h2 & Hmap & Hsub2 & Hes').
    { by eapply denotes_entries_mono. }
    { eauto using in_cons. }
    exists ((k, v') :: es'), h2. simpl. unfold bind at 1. unfold bind at 1.
    rewrite Hcopy. unfold ret at 1. unfold bind at 1. rewrite Hmap.
    repeat split.
    + by etrans.
    + constructor; [|done]. split; [done|]. by eapply denotes_mono.
Qed.

End CopyFacts.

(** A copy of plain data denotes the same data, in a store that has grown. *)
Lemma plainCopy_denotes fuel d v h :
  depth d < fuel -> denotes h v d ->
  exists v' h', Store.plainCopy fuel v h = (Ok v', h') /\ h ⊆ h' /\ denotes h' v' d.
Proof.
  revert d v h. induction fuel as [|fuel IH]; intros d v h Hfuel Hd; [lia|].
  inversion Hd as [| | | | |l vs ds Hl Hall|l es ds Hl Hall]; subst;
    try (eexists _, h; by repeat split).
  - destruct (mapM_copy_elems fuel IH vs ds h Hall) as (vs' & h1 & Hmap & Hsub & Hvs').
    { intros d Hin. apply depth_elem in Hin. lia. }
    exists (VRef (fresh (dom h1))), (<[fresh (dom h1) := Arr vs']> h1).
    assert (Hsub' : h1 ⊆ <[fresh (dom h1) := Arr vs']> h1)
      by apply insert_subseteq, alloc_fresh.
    simpl. unfold bind at 1, Store.read. rewrite Hl.
    unfold bind at 1. rewrite Hmap. repeat split.
    + by etrans.
    + econstructor; [apply lookup_insert_eq|].
      eapply Forall2_impl; [exact Hvs'|]. intros. by eapply denotes_mono.
  - destruct (mapM_copy_entries fuel IH es ds h Hall) as (es' & h1 & Hmap & Hsub & Hes').
    { intros k d Hin. apply depth_entry in Hin. lia. }
    exists (VRef (fresh (dom h1))), (<[fresh (dom h1) := Obj es']> h1).
    assert (Hsub' : h1 ⊆ <[fresh (dom h1) := Obj es']> h1)
      by apply insert_subseteq, alloc_fresh.
    simpl. unfold bind at 1, Store.read. rewrite Hl.
    unfold bind at 1. rewrite Hmap. repeat split.
    + by etrans.
    + econstructor; [apply lookup_insert_eq|]. by eapply denotes_entries_mono.
Qed.

(** The copy of an object: a new cell on top of a store [hc] that extends
    the old one and already holds the copies of the members. *)
Lemma plainCopy_object fuel l ds h :
  depth (DObj ds) < fuel -> denotes h (VRef l) (DObj ds) ->
  exists l' es' hc,
    Store.plainCopy fuel (VRef l) h = (Ok (VRef l'), <[l' := Obj es']> hc)
    /\ h ⊆ hc
    /\ hc !! l' = None
    /\ Forall2 (fun e d => fst e = fst d /\ denotes hc (snd e) (snd d)) es' ds.
Proof.
  intros Hfuel Hd. destruct fuel as [|fuel]; [lia|].
  inversion Hd as [| | | | | |? es ? Hl Hall]; subst.
  destruct (mapM_copy_entries fuel (plainCopy_denotes fuel) es ds h Hall)
    as (es' & h1 & Hmap & Hsub & Hes').
  { intros k d Hin. apply depth_entry in Hin. lia. }
  exists (fresh (dom h1)), es', h1.
  simpl. unfold bind at 1, Store.read. rewrite Hl.
  unfold bind at 1. rewrite Hmap. repeat split; [done|apply alloc_fresh|done].
Qed.

Lemma delete_prop_absent {A} (key : string) (es : list (string * A)) :
  lookup_key key es = None -> delete_prop key es = es.
Proof.
  unfold delete_prop. induction es as [|[k v] es IH]; simpl; [done|].
  destruct (String.eqb k key); [done|]. simpl. intros Hl. by rewrite IH.
Qed.

Lemma lookup_key_delete_ne {A} (key key' : string) (es : list (string * A)) :
  String.eqb key' key = false ->
  lookup_key key (delete_prop key' es) = lookup_key key es.
Proof.
  intros Hne. unfold delete_prop. induction es as [|[k v] es IH]; simpl; [done|].
  destruct (String.eqb_spec k key') as [->|Hk]; simpl.
  - by rewrite Hne.
  - by rewrite IH.
Qed.

Lemma delete_prop_In {A} (key k : string) (a : A) (es : list (string * A)) :
  In (k, a) (delete_prop key es) -> In (k, a) es.
Proof. unfold delete_prop. rewrite filter_In. tauto. Qed.

Lemma delete_reserved {A} (es : list (string * A)) :
  delete_prop "where" (delete_prop "orderBy" (delete_prop "offset"
    (delete_prop "limit" es)))
  = List.filter (fun e => negb (reserved (fst e))) es.
Proof.
  unfold delete_prop, reserved. induction es as [|[k v] es IH]; [done|]. simpl.
  destruct (String.eqb k "limit"); simpl; [done|].
  destruct (String.eqb k "offset"); simpl; [done|].
  destruct (String.eqb k "orderBy"); simpl; [done|].
  destruct (String.eqb k "where"); simpl; [done|].
  by rewrite IH.
Qed.

Section Related.
Variable hc : heap.

Lemma related_lookup_Some key cur dcur d :
  Forall2 (related hc) cur dcur -> lookup_key key dcur = Some d ->
  exists v, get_prop key cur = Some v /\ denotes hc v d.
Proof.
  unfold get_prop. induction 1 as [|[k v] [k' d'] cur dcur [Hk Hv] _ IH]; [done|].
  simpl in *. subst k'. destruct (String.eqb k key); [|done].
  intros [= ->]. eauto.
Qed.

Lemma related_lookup_None key cur dcur :
  Forall2 (related hc) cur dcur -> lookup_key key dcur = None ->
  get_prop key cur = None.
Proof.
  unfold get_prop. induction 1 as [|[k v] [k' d'] cur dcur [Hk Hv] _ IH]; [done|].
  simpl in *. subst k'. by destruct (String.eqb k key).
Qed.

Lemma related_delete key cur dcur :
  Forall2 (related hc) cur dcur ->
  Forall2 (related hc) (delete_prop key cur) (delete_prop key dcur).
Proof.
  unfold delete_prop. induction 1 as [|[k v] [k' d'] cur dcur [Hk Hv] _ IH]; [done|].
  simpl in *. subst k'. destruct (String.eqb k key); simpl; [done|].
  by constructor.
Qed.

End Related.

Section StoreRuns.
Variable q : loc.

Lemma read_props_run h cur :
  h !! q = Some (Obj cur) -> Store.read_props q h = (Ok cur, h).
Proof. intros Hq. unfold Store.read_props, bind, Store.read. by rewrite Hq. Qed.

Lemma get_key_run key h cur :
  h !! q = Some (Obj cur) -> Store.get_key q key h = (Ok (get_prop key cur), h).
Proof. intros Hq. unfold Store.get_key, bind. by rewrite (read_props_run h cur). Qed.

Lemma delete_key_run key h cur :
  h !! q = Some (Obj cur) ->
  Store.delete_key q key h = (Ok tt, <[q := Obj (delete_prop key cur)]> h).
Proof. intros Hq. unfold Store.delete_key, bind. by rewrite (read_props_run h cur). Qed.

End StoreRuns.

Section PhaseRuns.
Context {B : Type} `{QueryBuilder B}.
Variables (hc : heap) (q : loc).
Hypothesis fresh_q : hc !! q = None.

Lemma value_phase_run fuel key (method : B -> data -> B) builder h cur dcur :
  hc ⊆ h ->
  h !! q = Some (Obj cur) ->
  Forall2 (related hc) cur dcur ->
  (forall k d, In (k, d) dcur -> depth d < fuel) ->
  exists h2,
    Store.value_phase fuel q key method builder h
    = (Ok (match lookup_key key dcur with
           | Some d => method builder d
           | None => builder
           end), h2)
    /\ hc ⊆ h2
    /\ h2 !! q = Some (Obj (delete_prop key cur)).
Proof.
  intros Hsub Hcell Hrel Hdepth. unfold Store.value_phase, bind at 1.
  rewrite (get_key_run q key h cur Hcell).
  destruct (lookup_key key dcur) as [d|] eqn:Hd.
  - destruct (related_lookup_Some hc key cur dcur d Hrel Hd) as (v & -> & Hv).
    unfold bind at 1. rewrite (reify_denotes fuel d v h).
    + unfold bind. rewrite (delete_key_run q key h cur Hcell).
      eexists. split; [done|]. split; [by apply insert_subseteq_r|].
      apply lookup_insert_eq.
    + eauto using lookup_key_In.
    + by eapply denotes_mono.
  - rewrite (related_lookup_None hc key cur dcur Hrel Hd).
    exists h. split; [done|]. split; [done|].
    rewrite delete_prop_absent; [done|].
    by apply (related_lookup_None hc key cur dcur).
Qed.

Lemma orderBy_steps_run (builder : B) h vs items :
  Forall2 (fun v item => denotes h v (DArr [DStr (fst item); DStr (snd item)]))
    vs items ->
  foldM Store.orderBy_step vs builder h = (Ok (apply_orderBy builder items), h).
Proof.
  intros Hall. revert builder.
  induction Hall as [|v [n dir] vs items Hv _ IH]; intros builder; [done|].
  simpl. unfold bind at 1.
  inversion Hv as [| | | | |l elems ? Hl Helems|]; subst.
  inversion Helems as [|v1 ? ? ? Hv1 Hrest]; subst.
  inversion Hrest as [|v2 ? ? ? Hv2 Hnil]; subst.
  inversion Hnil; subst. inversion Hv1; subst. inversion Hv2; subst.
  unfold Store.orderBy_step, bind at 1, Store.read. rewrite Hl. simpl.
  unfold ret at 1. apply IH.
Qed.

Lemma orderBy_phase_run builder h cur dcur ob :
  hc ⊆ h ->
  h !! q = Some (Obj cur) ->
  Forall2 (related hc) cur dcur ->
  lookup_key "orderBy" dcur = option_map order_data ob ->
  exists h2,
    Store.orderBy_phase q builder h
    = (Ok (match ob with
           | Some items => apply_orderBy builder items
           | None => builder
           end), h2)
    /\ hc ⊆ h2
    /\ h2 !! q = Some (Obj (delete_prop "orderBy" cur)).
Proof.
  intros Hsub Hcell Hrel Hord. unfold Store.orderBy_phase, bind at 1.
  rewrite (get_key_run q "orderBy" h cur Hcell).
  destruct ob as [items|]; simpl in Hord.
  - destruct (related_lookup_Some hc _ cur dcur _ Hrel Hord) as (v & -> & Hv).
    apply (denotes_mono hc h) in Hv; [|done].
    inversion Hv as [| | | | |l vs ? Hl Hvs|]; subst.
    unfold bind at 1, Store.orderBy_items, bind at 1, Store.read.
    rewrite Hl. unfold ret at 1. unfold bind at 1.
    rewrite (orderBy_steps_run builder h vs items).
    + unfold bind. rewrite (delete_key_run q "orderBy" h cur Hcell).
      eexists. split; [done|]. split; [by apply insert_subseteq_r|].
      apply lookup_insert_eq.
    + clear -Hvs. revert vs Hvs.
      induction items as [|item items IH]; intros vs Hvs;
        inversion Hvs; subst; constructor; auto.
  - rewrite (related_lookup_None hc _ cur dcur Hrel Hord).
    exists h. split; [done|]. split; [done|].
    rewrite delete_prop_absent; [done|].
    by apply (related_lookup_None hc _ cur dcur).
Qed.

Lemma field_steps_run fuel es : forall fs (builder : B) h cur,
  hc ⊆ h ->
  h !! q = Some (Obj cur) ->
  Forall2 (related hc) es (field_data fs) ->
  (forall f cond, In (f, cond) fs -> depth (DObj cond) < fuel) ->
  exists h2 cur2,
    foldM (Store.field_step fuel q) es builder h = (Ok (apply_fields builder fs), h2)
    /\ hc ⊆ h2
    /\ h2 !! q = Some (Obj cur2).
Proof.
  induction es as [|[f v] es IH]; intros fs builder h cur Hsub Hcell Hrel Hdepth;
    destruct fs as [|[f' cond] fs]; inversion Hrel as [|? ? ? ? [Hf Hv] Hrest]; subst.
  - exists h, cur. by repeat split.
  - simpl in Hf, Hv. subst f'.
    cbn [foldM]. unfold bind at 1. unfold Store.field_step at 1.
    cbn [fst snd]. unfold bind at 1. rewrite (delete_key_run q f h cur Hcell).
    set (h1 := <[q := Obj (delete_prop f cur)]> h).
    assert (Hsub1 : hc ⊆ h1) by by apply insert_subseteq_r.
    assert (Hcell1 : h1 !! q = Some (Obj (delete_prop f cur)))
      by apply lookup_insert_eq.
    apply (denotes_mono hc h1) in Hv; [|done].
    inversion Hv as [| | | | | |l ces ? Hl Hces]; subst.
    unfold bind at 1, Store.entries_of_cond, bind at 1, Store.read.
    rewrite Hl. unfold ret at 1. unfold bind at 1.
    rewrite (mapM_reify_entries fuel (reify_denotes fuel) h1 ces cond Hces).
    + unfold ret at 1.
      destruct (IH fs (apply_cond builder f cond) h1 (delete_prop f cur))
        as (h2 & cur2 & Hrun & Hsub2 & Hcell2); [done|done|done|..].
      { intros. eapply Hdepth. by right. }
      exists h2, cur2. by repeat split.
    + intros k d Hin. apply depth_entry in Hin.
      specialize (Hdepth f cond (in_eq _ _)). lia.
Qed.

Lemma fields_phase_run fuel fs (builder : B) h cur :
  hc ⊆ h ->
  h !! q = Some (Obj cur) ->
  Forall2 (related hc) cur (field_data fs) ->
  (forall f cond, In (f, cond) fs -> depth (DObj cond) < fuel) ->
  exists h2,
    Store.fields_phase fuel q builder h = (Ok (apply_fields builder fs), h2).
Proof.
  intros Hsub Hcell Hrel Hdepth. unfold Store.fields_phase, bind.
  rewrite (read_props_run q h cur Hcell).
  destruct (field_steps_run fuel cur fs builder h cur) as (h2 & ? & Hrun & _);
    eauto.
Qed.

End PhaseRuns.

Lemma toSql_on_store_runs {B : Type} `{QueryBuilder B} (d : data) (q : query) :
  renders d q ->
  forall fuel (builder : B) v h,
    depth d < fuel -> denotes h v d ->
    exists h', Store.toSql fuel builder v h = (Ok (toSql builder q), h').
Proof.
  induction 1 as [es ob fs Hord Hwhere Hfields
                 |es ob dw w fs Hord Hwhere Hrw IH Hfields];
    intros fuel builder v h Hfuel Hd.
  all: destruct fuel as [|fuel']; [lia|].
  all: inversion Hd as [| | | | | |l es0 ? Hl Hall]; subst.
  all: destruct (plainCopy_object (S fuel') l es h Hfuel Hd)
         as (q' & es' & hc & Hcopy & Hsub & Hfresh & Hrel).
  all: assert (Hdepth : forall k d, In (k, d) es -> depth d < S fuel')
         by (intros k d Hin; apply depth_entry in Hin; lia).
  all: cbn [Store.toSql toSql q_limit q_offset q_orderBy q_where q_fields].
  all: unfold bind at 1; rewrite Hcopy.
  all: unfold bind at 1.
  all: destruct (value_phase_run hc q' Hfresh (S fuel') "limit" limit builder
                   (<[q' := Obj es']> hc) es' es)
         as (h2 & -> & Hsub2 & Hcell2);
         [by apply insert_subseteq|apply lookup_insert_eq|done|done|].
  all: unfold bind at 1.
  all: destruct (value_phase_run hc q' Hfresh (S fuel') "offset" offset
                   (match lookup_key "limit" es with
                    | Some d => limit builder d
                    | None => builder
                    end)
                   h2 (delete_prop "limit" es') (delete_prop "limit" es))
         as (h3 & -> & Hsub3 & Hcell3);
         [done|done|by apply related_delete|eauto using delete_prop_In|].
  all: rewrite lookup_key_delete_ne by done.
  all: unfold bind at 1.
  all: destruct (orderBy_phase_run hc q' Hfresh
                   (match lookup_key "offset" es with
                    | Some d => offset
                        (match lookup_key "limit" es with
                         | Some d => limit builder d
                         | None => builder
                         end) d
                    | None =>
                        match lookup_key "limit" es with
                        | Some d => limit builder d
                        | None => builder
                        end
                    end)
                   h3 (delete_prop "offset" (delete_prop "limit" es'))
                   (delete_prop "offset" (delete_prop "limit" es)) ob)
         as (h4 & -> & Hsub4 & Hcell4);
         [done|done|by do 2 apply related_delete
         |by rewrite !lookup_key_delete_ne by done|].
  all: set (b3 := match ob with Some _ => _ | None => _ end).
  all: set (cur3 := delete_prop "orderBy" _) in *.
  all: assert (Hrel3 : Forall2 (related hc) cur3
         (delete_prop "orderBy" (delete_prop "offset" (delete_prop "limit" es))))
         by (by do 3 apply related_delete).
  all: assert (Hwhere3 : lookup_key "where"
         (delete_prop "orderBy" (delete_prop "offset" (delete_prop "limit" es)))
         = lookup_key "where" es)
         by (by rewrite !lookup_key_delete_ne by done).
  all: unfold bind at 1; rewrite (get_key_run q' "where" h4 cur3 Hcell4).
  - rewrite Hwhere in Hwhere3.
    rewrite (related_lookup_None hc "where" cur3 _ Hrel3 Hwhere3).
    unfold bind at 1, ret at 1.
    apply (fields_phase_run hc q' Hfresh (S fuel') fs b3 h4 cur3); [done|done| |].
    + rewrite <- Hfields, <- delete_reserved.
      by rewrite (delete_prop_absent "where").
    + intros f cond Hin. apply (Hdepth f).
      assert (Hin' : In (f, DObj cond) (field_data fs)).
      { unfold field_data. apply in_map_iff. by exists (f, cond). }
      rewrite <- Hfields in Hin'. apply filter_In in Hin'. tauto.
  - rewrite Hwhere in Hwhere3.
    destruct (related_lookup_Some hc "where" cur3 _ dw Hrel3 Hwhere3)
      as (vw & -> & Hvw).
    assert (Hdw : depth dw < fuel').
    { apply lookup_key_In, depth_entry in Hwhere. lia. }
    destruct (IH fuel' b3 vw h4 Hdw) as (h5 & Hnested);
      [by eapply denotes_mono|].
    unfold bind at 1. unfold bind at 1. rewrite Hnested.
    assert (Hgrow := grows_toSql h4 fuel' b3 vw h4 (reflexivity h4)).
    rewrite Hnested in Hgrow. simpl in Hgrow.
    assert (Hcell5 : h5 !! q' = Some (Obj cur3)) by by eapply lookup_weaken.
    unfold bind at 1. rewrite (delete_key_run q' "where" h5 cur3 Hcell5).
    unfold ret at 1.
    apply (fields_phase_run hc q' Hfresh (S fuel') fs (toSql b3 w)
             (<[q' := Obj (delete_prop "where" cur3)]> h5)
             (delete_prop "where" cur3)).
    + apply insert_subseteq_r; [done|]. by etrans.
    + apply lookup_insert_eq.
    + rewrite <- Hfields, <- delete_reserved. by apply related_delete.
    + intros f cond Hin. apply (Hdepth f).
      assert (Hin' : In (f, DObj cond) (field_data fs)).
      { unfold field_data. apply in_map_iff. by exists (f, cond). }
      rewrite <- Hfields in Hin'. apply filter_In in Hin'. tauto.
Qed.

(** On a store in which the value [v] denotes a plain object that renders the
    abstract query [q], the compiler, given fuel beyond the depth of the
    object, returns; what it returns is what the compiler on contents
    computes from [q]; and the store it leaves extends the one it found. *)
Theorem toSql_on_store_agrees {B : Type} `{QueryBuilder B}
  (d : data) (q : query) (fuel : nat) (builder : B) (v : jsval) (h : heap) :
  renders d q ->
  depth d < fuel ->
  denotes h v d ->
  exists h',
    Store.toSql fuel builder v h = (Ok (toSql builder q), h')
    /\ h ⊆ h'
    /\ denotes h' v d.
Proof.
  intros Hr Hfuel Hd.
  destruct (toSql_on_store_runs d q Hr fuel builder v h Hfuel Hd) as (h' & Hrun).
  pose proof (grows_toSql h fuel builder v h (reflexivity h)) as Hgrow.
  rewrite Hrun in Hgrow. exists h'. split; [done|]. split; [done|].
  by eapply denotes_mono.
Qed.

Lemma denotes_h_nested : denotes h_nested (VRef 1%positive) d_nested.
Proof.
  assert (Hage : denotes h_nested (VRef 4%positive)
            (DObj [(">=", DNum 18); ("~=", DNum 3); ("<", DNum 65)])).
  { apply (den_obj h_nested 4%positive
             [(">=", VNum 18); ("~=", VNum 3); ("<", VNum 65)]); [reflexivity|].
    repeat (apply List.Forall2_cons; [split; [reflexivity|apply den_num]|]).
    apply List.Forall2_nil. }
  assert (Hstatus : denotes h_nested (VRef 3%positive) (DObj [("==", DStr "active")])).
  { apply (den_obj h_nested 3%positive [("==", VStr "active")]); [reflexivity|].
    apply List.Forall2_cons; [split; [reflexivity|apply den_str]|].
    apply List.Forall2_nil. }
  assert (Hpair : denotes h_nested (VRef 6%positive) (DArr [DStr "name"; DStr "ASC"])).
  { apply (den_arr h_nested 6%positive [VStr "name"; VStr "ASC"]); [reflexivity|].
    repeat (apply List.Forall2_cons; [apply den_str|]). apply List.Forall2_nil. }
  assert (Horder : denotes h_nested (VRef 5%positive)
            (DArr [DArr [DStr "name"; DStr "ASC"]])).
  { apply (den_arr h_nested 5%positive [VRef 6%positive]); [reflexivity|].
    apply List.Forall2_cons; [exact Hpair|]. apply List.Forall2_nil. }
  assert (Hwhere : denotes h_nested (VRef 2%positive)
            (DObj [("limit", DNum 1);
                   ("age", DObj [(">=", DNum 18); ("~=", DNum 3); ("<", DNum 65)])])).
  { apply (den_obj h_nested 2%positive
             [("limit", VNum 1); ("age", VRef 4%positive)]); [reflexivity|].
    apply List.Forall2_cons; [split; [reflexivity|apply den_num]|].
    apply List.Forall2_cons; [split; [reflexivity|exact Hage]|].
    apply List.Forall2_nil. }
  apply (den_obj h_nested 1%positive
           [("limit", VNum 5); ("where", VRef 2%positive);
            ("status", VRef 3%positive); ("orderBy", VRef 5%positive)]);
    [reflexivity|].
  apply List.Forall2_cons; [split; [reflexivity|apply den_num]|].
  apply List.Forall2_cons; [split; [reflexivity|exact Hwhere]|].
  apply List.Forall2_cons; [split; [reflexivity|exact Hstatus]|].
  apply List.Forall2_cons; [split; [reflexivity|exact Horder]|].
  apply List.Forall2_nil.
Qed.

Lemma renders_d_nested : renders d_nested q_nested.
Proof.
  apply (renders_nested
           [("limit", DNum 5);
            ("where", DObj [("limit", DNum 1);
                            ("age", DObj [(">=", DNum 18); ("~=", DNum 3); ("<", DNum 65)])]);
            ("status", DObj [("==", DStr "active")]);
            ("orderBy", DArr [DArr [DStr "name"; DStr "ASC"]])]
           (Some [("name", "ASC")])
           (DObj [("limit", DNum 1);
                  ("age", DObj [(">=", DNum 18); ("~=", DNum 3); ("<", DNum 65)])])
           (Query (Some (DNum 1)) None None None
              [("age", [(">=", DNum 18); ("~=", DNum 3); ("<", DNum 65)])])
           [("status", [("==", DStr "active")])]);
    [reflexivity|reflexivity| |reflexivity].
  apply (renders_flat
           [("limit", DNum 1);
            ("age", DObj [(">=", DNum 18); ("~=", DNum 3); ("<", DNum 65)])]
           None
           [("age", [(">=", DNum 18); ("~=", DNum 3); ("<", DNum 65)])]);
    reflexivity.
Qed.

Lemma toSql_on_store_agrees_witness :
  fst (Store.toSql (B := list call) 10 [] (VRef 1%positive) h_nested)
  = Ok (toSql [] q_nested).
Proof.
  destruct (toSql_on_store_agrees (B := list call) d_nested q_nested 10 []
              (VRef 1%positive) h_nested renders_d_nested ltac:(simpl; lia)
              denotes_h_nested) as (h' & Hrun & _).
  by rewrite Hrun.
Defined.

(** ** Query compiler: nested [where] and unrecognized operators *)

Lemma query_ind' (P : query -> Prop) :
  (forall l o ob fs, P (Query l o ob None fs)) ->
  (forall l o ob w fs, P w -> P (Query l o ob (Some w) fs)) ->
  forall q, P q.
Proof.
  intros Hnone Hsome. fix IH 1.
  intros [l o ob [w|] fs]; [apply Hsome, IH|apply Hnone].
Qed.

Section StatementFacts.

Lemma apply_op_statement (b : statement) field op value :
  apply_op b field op value =
  Statement (st_limit b) (st_offset b) (st_order b)
    (st_where b ++ predicate_of field op value).
Proof.
  unfold apply_op, predicate_of.
  repeat (match goal with |- context [if ?c then _ else _] => destruct c end;
          [reflexivity|]).
  destruct b; simpl. by rewrite app_nil_r.
Qed.

Lemma apply_cond_statement (b : statement) field cond :
  apply_cond b field cond =
  Statement (st_limit b) (st_offset b) (st_order b)
    (st_where b ++ flat_map (fun c => predicate_of field (fst c) (snd c)) cond).
Proof.
  revert b. induction cond as [|[op v] cond IH]; intros b; simpl.
  - destruct b; simpl. by rewrite app_nil_r.
  - unfold apply_cond in *. simpl. rewrite IH, apply_op_statement. simpl.
    by rewrite <- app_assoc.
Qed.

Lemma apply_fields_statement (b : statement) fields :
  apply_fields b fields =
  Statement (st_limit b) (st_offset b) (st_order b)
    (st_where b ++ field_predicates fields).
Proof.
  revert b. induction fields as [|[f cond] fields IH]; intros b; simpl.
  - destruct b; simpl. by rewrite app_nil_r.
  - unfold apply_fields in *. simpl. rewrite IH, apply_cond_statement. simpl.
    unfold field_predicates. simpl. by rewrite <- app_assoc.
Qed.

Lemma apply_orderBy_statement (b : statement) order :
  apply_orderBy b order =
  Statement (st_limit b) (st_offset b) (st_order b ++ lowered (Some order))
    (st_where b).
Proof.
  revert b. induction order as [|[n d] order IH]; intros b; simpl.
  - destruct b; simpl. by rewrite app_nil_r.
  - unfold apply_orderBy in *. simpl. rewrite IH. simpl.
    by rewrite <- app_assoc.
Qed.

End StatementFacts.

(** The builder calls, and the statement, for the README's complex query. *)
Example toSql_readme_query :
  toSql (B := list call) [] readme_query
  = [CLimit (DNum 50); COffset (DNum 0); COrderBy "name" "asc";
     CWhere "status" "=" (DStr "active");
     CWhereIn "email" (DStr "@example.com");
     CWhere "age" ">=" (DNum 18); CWhere "age" "<" (DNum 65)]
  /\ toSql empty_statement readme_query
     = Statement (Some (DNum 50)) (Some (DNum 0)) [("name", "asc")]
         [CWhere "status" "=" (DStr "active");
          CWhereIn "email" (DStr "@example.com");
          CWhere "age" ">=" (DNum 18); CWhere "age" "<" (DNum 65)].
Proof. split; reflexivity. Qed.

(** C2 as stated fails: in [{limit: 5, where: {limit: 1}}] the nested limit is
    not ignored; the builder is called with it after the outer one, and it
    replaces the outer one, so the compiled statement differs from that of
    [{limit: 5, where: {}}]. *)
Lemma toSql_nested_limit_counterexample :
  toSql (B := list call) [] q_nested_limit = [CLimit (DNum 5); CLimit (DNum 1)]
  /\ toSql (B := list call) [] q_nested_plain = [CLimit (DNum 5)]
  /\ st_limit (toSql empty_statement q_nested_limit) = Some (DNum 1)
  /\ st_limit (toSql empty_statement q_nested_plain) = Some (DNum 5)
  /\ toSql empty_statement q_nested_limit <> toSql empty_statement q_nested_plain.
Proof.
  split; [reflexivity|]. split; [reflexivity|]. split; [reflexivity|].
  split; [reflexivity|]. discriminate.
Qed.

(** C2 (amended): a nested [where] object is compiled by the same compiler
    into the same builder. On a statement that keeps the last LIMIT and
    OFFSET set: the limit and offset of the innermost [where] that has one
    are in force, else the query's own, else the builder's; the nested
    orderBy items follow the query's own; the nested predicates precede the
    query's own. *)
Theorem toSql_nested_where_compiled (q : query) (b : statement) :
  toSql b q =
  Statement
    (match effective_limit q with Some v => Some v | None => st_limit b end)
    (match effective_offset q with Some v => Some v | None => st_offset b end)
    (st_order b ++ effective_order q)
    (st_where b ++ effective_predicates q).
Proof.
  revert b. induction q as [l o ob fs|l o ob w fs IH] using query_ind'; intros b.
  - simpl. rewrite apply_fields_statement.
    destruct ob as [order|]; [rewrite apply_orderBy_statement|];
      destruct l, o; simpl; by rewrite ?app_nil_r.
  - cbn [toSql q_limit q_offset q_orderBy q_where q_fields].
    rewrite apply_fields_statement, IH.
    cbn [effective_limit effective_offset effective_order effective_predicates
         q_limit q_offset q_orderBy q_where q_fields st_limit st_offset st_order
         st_where].
    destruct ob as [order|]; [rewrite apply_orderBy_statement|];
      destruct l, o, (effective_limit w), (effective_offset w); simpl;
      by rewrite ?app_nil_r, <- ?app_assoc.
Qed.

Section UnrecognizedFacts.
Context {B : Type} `{QueryBuilder B}.

Lemma apply_op_unrecognized (builder : B) field op value :
  recognized op = false -> apply_op builder field op value = builder.
Proof.
  unfold recognized, apply_op. simpl.
  repeat (destruct (String.eqb op _); [discriminate|]).
  reflexivity.
Qed.

Lemma apply_cond_unrecognized (builder : B) field op value c1 c2 :
  recognized op = false ->
  apply_cond builder field (c1 ++ (op, value) :: c2)
  = apply_cond builder field (c1 ++ c2).
Proof.
  intros Hop. unfold apply_cond. rewrite !fold_left_app. simpl.
  by rewrite apply_op_unrecognized.
Qed.

Lemma apply_fields_unrecognized (builder : B) field op value c1 c2 fs1 fs2 :
  recognized op = false ->
  apply_fields builder (fs1 ++ (field, c1 ++ (op, value) :: c2) :: fs2)
  = apply_fields builder (fs1 ++ (field, c1 ++ c2) :: fs2).
Proof.
  intros Hop. unfold apply_fields. rewrite !fold_left_app. simpl.
  by rewrite apply_cond_unrecognized.
Qed.

End UnrecognizedFacts.

Lemma toSql_drops_entry {B : Type} `{QueryBuilder B} (op : string) (q q' : query) :
  recognized op = false ->
  drops_entry op q q' ->
  forall builder : B, toSql builder q = toSql builder q'.
Proof.
  intros Hop Hdrop.
  induction Hdrop as [l o ob w fs1 f c1 v c2 fs2|l o ob w w' fs Hd IH];
    intros builder; cbn [toSql q_limit q_offset q_orderBy q_where q_fields].
  - by apply apply_fields_unrecognized.
  - by rewrite IH.
Qed.

(** C7: an operator entry whose key is not one of the twelve recognized
    operators adds no call to the builder and raises no error: the query
    compiles, on every builder, to what it compiles to with that entry
    removed, whether the entry sits in a field of the query or of a nested
    [where]; and on a store that holds the query with the entry, the compiler
    returns just that. *)
Theorem toSql_unrecognized_operator_dropped
  {B : Type} `{QueryBuilder B} (op : string) (q q' : query) :
  recognized op = false ->
  drops_entry op q q' ->
  forall builder : B,
    toSql builder q = toSql builder q'
    /\ forall fuel v h d,
         denotes h v d -> renders d q -> depth d < fuel ->
         fst (Store.toSql fuel builder v h) = Ok (toSql builder q').
Proof.
  intros Hop Hdrop builder.
  pose proof (toSql_drops_entry op q q' Hop Hdrop builder) as Heq.
  split; [done|].
  intros fuel v h d Hd Hr Hfuel.
  destruct (toSql_on_store_runs d q Hr fuel builder v h Hfuel Hd) as (h' & ->).
  simpl. by rewrite Heq.
Qed.

Lemma toSql_unrecognized_operator_dropped_witness :
  toSql (B := list call) [] q_unrecognized
  = [CWhere "age" ">=" (DNum 18); CWhere "age" "<" (DNum 65)].
Proof.
  destruct (toSql_unrecognized_operator_dropped (B := list call) "~="
              q_unrecognized q_recognized eq_refl
              (drops_here "~=" None None None None [] "age" [(">=", DNum 18)]
                 (DNum 3) [("<", DNum 65)] []) []) as [Heq _].
  exact Heq.
Defined.

(** ** Compilation leaves the caller's query alone *)

(** C5: whatever its outcome and whatever the builder, [toSql] ends in a
    store in which every object that existed before the call is what it was;
    so the caller's query denotes, at every nesting level, the data it
    denoted before: all deletions go to the copy. And when the caller's
    value is a well-formed query, the call does return, with the compiled
    builder. *)
Theorem toSql_leaves_caller_query_unchanged
  {B : Type} `{QueryBuilder B}
  (fuel : nat) (builder : B) (query : jsval) (h : heap) :
  (forall l o, h !! l = Some o ->
     snd (Store.toSql fuel builder query h) !! l = Some o)
  /\ (forall d, denotes h query d ->
        denotes (snd (Store.toSql fuel builder query h)) query d)
  /\ (forall d q, denotes h query d -> renders d q -> depth d < fuel ->
        fst (Store.toSql fuel builder query h) = Ok (toSql builder q)).
Proof.
  pose proof (grows_toSql h fuel builder query h (reflexivity h)) as Hsub.
  split; [|split].
  - intros l o Hl. by eapply lookup_weaken.
  - intros d Hd. by eapply denotes_mono.
  - intros d q Hd Hr Hfuel.
    by destruct (toSql_on_store_runs d q Hr fuel builder query h Hfuel Hd)
      as (h' & ->).
Qed.

Lemma toSql_leaves_caller_query_unchanged_witness :
  fst (Store.toSql (B := list call) 10 [] (VRef 1%positive) h_nested)
  = Ok [CLimit (DNum 5); COrderBy "name" "asc"; CLimit (DNum 1);
        CWhere "age" ">=" (DNum 18); CWhere "age" "<" (DNum 65);
        CWhere "status" "=" (DStr "active")]
  /\ snd (Store.toSql (B := list call) 10 [] (VRef 1%positive) h_nested)
       !! 1%positive
     = Some (Obj [("limit", VNum 5); ("where", VRef 2%positive);
                  ("status", VRef 3%positive); ("orderBy", VRef 5%positive)]).
Proof.
  split; [vm_compute; reflexivity|].
  apply (proj1 (toSql_leaves_caller_query_unchanged (B := list call)
                  10 [] (VRef 1%positive) h_nested)).
  reflexivity.
Defined.

(** ** Create *)

Lemma get_prop_set_prop key v entries :
  get_prop key (set_prop key v entries) = Some v.
Proof.
  unfold get_prop. induction entries as [|[k w] rest IH]; simpl.
  - by rewrite String.eqb_refl.
  - destruct (String.eqb k key) eqn:Hk; simpl; by rewrite Hk.
Qed.

Section CreateFacts.
Variable fetch : list request -> request -> transport.
Variable insertSQL : string -> obj -> request.

(** Provisioning never touches the object store. *)
Lemma ensureTable_store (mapper : Mapper) (a : adapter) :
  store (snd (_ensureTable fetch mapper a)) = store a.
Proof.
  unfold _ensureTable, bind at 1, get_state. simpl.
  destruct (decide _); [done|].
  destruct (negb _); [done|].
  unfold bind. rewrite executeSQL_run. simpl.
  destruct (fetch _ _) as [msg|resp]; [done|].
  by destruct (negb _).
Qed.

(** One successful insert: what [_create] returns and leaves behind. *)
Lemma create_run (mapper : Mapper) (props : loc) (a a1 : adapter)
  (entries : list (string * jsval)) (resp : envelope) (r : queryResult)
  (rest : list queryResult) :
  _ensureTable fetch mapper a = (Ok tt, a1) ->
  store a1 !! props = Some (Obj entries) ->
  fetch (sent a1) (insertSQL (_getTable mapper) (Obj entries)) = Response resp ->
  success resp = Some true ->
  result resp = r :: rest ->
  _create fetch insertSQL mapper props a =
  (Ok (VRef props, meta r),
   let a2 := record_request (insertSQL (_getTable mapper) (Obj entries)) a1 in
   if truthy (last_row_id r)
   then with_cell props (Obj (set_prop (id_key mapper) (last_row_id r) entries)) a2
   else a2).
Proof.
  intros Hensure Hprops Hfetch Hsucc Hres.
  unfold _create, bind at 1. rewrite Hensure.
  unfold bind at 1, read_store. rewrite Hprops.
  unfold bind at 1. rewrite executeSQL_run.
  destruct (insertSQL _ _) as [q ps] eqn:Hstmt. simpl.
  rewrite Hfetch, Hsucc, Hres. simpl.
  destruct (truthy (last_row_id r)) eqn:Hid.
  - unfold bind, set_key, bind, read_store. simpl. by rewrite Hprops.
  - reflexivity.
Qed.

End CreateFacts.

(** C9 as stated fails: the remote reports [last_row_id: 0]; the record
    returned is the input props with no id attribute. *)
Lemma create_zero_row_id_counterexample :
  fst (_create (fetch_meta [("last_row_id", VNum 0)]) insert_stub user_mapper
         1%positive warm_adapter)
  = Ok (VRef 1%positive, Some [("last_row_id", VNum 0)])
  /\ store (snd (_create (fetch_meta [("last_row_id", VNum 0)]) insert_stub
                  user_mapper 1%positive warm_adapter)) !! 1%positive
     = Some (Obj [("name", VStr "John Doe")])
  /\ get_prop "id" [("name", VStr "John Doe")] = None.
Proof. repeat split; vm_compute; reflexivity. Qed.

(** C9 (amended): after a successful insert, [_create] returns the caller's
    props paired with the remote metadata, having sent the insert and no
    further request; when the metadata reports a non-zero [last_row_id] the
    props carry it under the mapper's id attribute; when [last_row_id] is
    absent or zero the props are as they were. *)
Theorem create_returns_annotated_props
  (fetch : list request -> request -> transport)
  (insertSQL : string -> obj -> request)
  (mapper : Mapper) (props : loc) (a a1 : adapter)
  (entries : list (string * jsval)) (resp : envelope) (r : queryResult)
  (rest : list queryResult) :
  _ensureTable fetch mapper a = (Ok tt, a1) ->
  store a1 !! props = Some (Obj entries) ->
  fetch (sent a1) (insertSQL (_getTable mapper) (Obj entries)) = Response resp ->
  success resp = Some true ->
  result resp = r :: rest ->
  let run := _create fetch insertSQL mapper props a in
  fst run = Ok (VRef props, meta r)
  /\ sent (snd run) = sent a1 ++ [insertSQL (_getTable mapper) (Obj entries)]
  /\ (forall n, last_row_id r = VNum n -> n <> 0%Z ->
        store (snd run) !! props
        = Some (Obj (set_prop (id_key mapper) (VNum n) entries)))
  /\ (last_row_id r = VUndef \/ last_row_id r = VNum 0 ->
        store (snd run) !! props = Some (Obj entries)).
Proof.
  intros Hensure Hprops Hfetch Hsucc Hres run. subst run.
  rewrite (create_run fetch insertSQL mapper props a a1 entries resp r rest)
    by done.
  cbn [fst snd]. split; [done|]. split; [by destruct (truthy _)|]. split.
  - intros n Hn Hnz. rewrite Hn. simpl.
    destruct (Z.eqb_spec n 0); [done|]. simpl. by rewrite lookup_insert_eq.
  - by intros [-> | ->].
Qed.

Lemma create_returns_annotated_props_witness :
  store (snd (_create (fetch_meta [("last_row_id", VNum 123)]) insert_stub
                user_mapper 1%positive warm_adapter)) !! 1%positive
  = Some (Obj [("name", VStr "John Doe"); ("id", VNum 123)]).
Proof.
  destruct (create_returns_annotated_props
              (fetch_meta [("last_row_id", VNum 123)]) insert_stub user_mapper
              1%positive warm_adapter warm_adapter
              [("name", VStr "John Doe")] _ _ [] eq_refl eq_refl eq_refl eq_refl
              eq_refl) as (_ & _ & Hset & _).
  apply (Hset 123%Z eq_refl). discriminate.
Defined.

(** C10 as stated fails: the metadata carries [last_row_id: 0], yet nothing is
    written onto the caller's props: the store after the call is the store
    before it. *)
Lemma create_zero_row_id_no_mutation_counterexample :
  last_row_id (QueryResult (Some []) (Some [("last_row_id", VNum 0)])) = VNum 0
  /\ fst (_create (fetch_meta [("last_row_id", VNum 0)]) insert_stub post_mapper
            2%positive post_adapter)
     = Ok (VRef 2%positive, Some [("last_row_id", VNum 0)])
  /\ store (snd (_create (fetch_meta [("last_row_id", VNum 0)]) insert_stub
                   post_mapper 2%positive post_adapter))
     = store post_adapter.
Proof. repeat split; vm_compute; reflexivity. Qed.

(** C10 (amended): when the metadata carries a non-zero [last_row_id],
    [_create] writes it onto the very object the caller passed: the reference
    returned is the caller's, the cell behind it now holds the id, and no
    other cell changes. The query compiler, in contrast, never changes a cell
    that existed before the call. *)
Theorem create_mutates_caller_props
  (fetch : list request -> request -> transport)
  (insertSQL : string -> obj -> request)
  (mapper : Mapper) (props : loc) (a a1 : adapter)
  (entries : list (string * jsval)) (resp : envelope) (r : queryResult)
  (rest : list queryResult) (n : Z) :
  _ensureTable fetch mapper a = (Ok tt, a1) ->
  store a1 !! props = Some (Obj entries) ->
  fetch (sent a1) (insertSQL (_getTable mapper) (Obj entries)) = Response resp ->
  success resp = Some true ->
  result resp = r :: rest ->
  last_row_id r = VNum n ->
  n <> 0%Z ->
  let run := _create fetch insertSQL mapper props a in
  (exists m, fst run = Ok (VRef props, m))
  /\ store a !! props = Some (Obj entries)
  /\ (exists entries',
        store (snd run) !! props = Some (Obj entries')
        /\ get_prop (id_key mapper) entries' = Some (VNum n))
  /\ (forall l, l <> props -> store (snd run) !! l = store a !! l)
  /\ (forall (B : Type) (QB : QueryBuilder B) fuel (builder : B) query,
        store a ⊆ snd (Store.toSql fuel builder query (store a))).
Proof.
  intros Hensure Hprops Hfetch Hsucc Hres Hid Hnz run. subst run.
  assert (Hstore : store a1 = store a).
  { pose proof (ensureTable_store fetch mapper a) as Hs. by rewrite Hensure in Hs. }
  rewrite (create_run fetch insertSQL mapper props a a1 entries resp r rest)
    by done.
  rewrite Hid. cbn [fst snd truthy].
  destruct (Z.eqb_spec n 0); [done|]. cbn [negb with_cell record_request store].
  split; [eauto|]. split; [by rewrite <- Hstore|]. split; [|split].
  - eexists. rewrite lookup_insert_eq. split; [done|]. apply get_prop_set_prop.
  - intros l Hl. rewrite lookup_insert_ne by done. by rewrite Hstore.
  - intros B QB fuel builder query. by apply grows_toSql.
Qed.

Lemma create_mutates_caller_props_witness :
  store (snd (_create (fetch_meta [("last_row_id", VNum 7)]) insert_stub
                post_mapper 2%positive post_adapter)) !! 2%positive
  <> store post_adapter !! 2%positive.
Proof.
  pose proof (create_mutates_caller_props
                (fetch_meta [("last_row_id", VNum 7)]) insert_stub post_mapper
                2%positive post_adapter post_adapter
                [("title", VStr "Hello")] _ _ [] 7%Z eq_refl eq_refl eq_refl
                eq_refl eq_refl eq_refl ltac:(discriminate)) as Hrun.
  cbv zeta in Hrun.
  destruct Hrun as (_ & Hbefore & (entries' & Hafter & Hid) & _).
  intros Heq.
  assert (Hsame : Some (Obj entries') = Some (Obj [("title", VStr "Hello")])).
  { etrans; [symmetry; exact Hafter|]. etrans; [exact Heq|exact Hbefore]. }
  injection Hsame as ->. discriminate Hid.
Defined.


(** * Further properties *)

(** ** Table names *)

Lemma is_upper_lower (c : ascii) : is_upper (lower c) = false.
Proof. destruct c as [[] [] [] [] [] [] [] []]; reflexivity. Qed.

Lemma lower_lower (c : ascii) : lower (lower c) = lower c.
Proof. destruct c as [[] [] [] [] [] [] [] []]; reflexivity. Qed.


Lemma no_upper_toLowerCase (s : string) : no_upper (toLowerCase s) = true.
Proof.
  induction s as [|c r IH]; [done|]. simpl. by rewrite is_upper_lower, IH.
Qed.

Lemma no_upper_strip (s : string) :
  no_upper s = true -> no_upper (strip_leading_underscore s) = true.
Proof.
  destruct s as [|c r]; [done|].
  destruct c as [[] [] [] [] [] [] [] []]; simpl; try done.
Qed.



(** X1: whatever the mapper name, the table name [underscore] derives from it
    holds no ASCII capital letter. *)
Theorem underscore_no_upper (str : string) : no_upper (underscore str) = true.
Proof. unfold underscore. apply no_upper_strip, no_upper_toLowerCase. Qed.

(** X2: the case of the first letter does not matter: a name that starts
    with a capital and the same name with that letter in lower case give the
    same table name. *)
Theorem underscore_first_letter (c : ascii) (rest : string) :
  is_upper c = true ->
  underscore (String c rest) = underscore (String (lower c) rest).
Proof.
  destruct c as [[] [] [] [] [] [] [] []]; intros Hc;
    try discriminate Hc; reflexivity.
Qed.

Lemma underscore_first_letter_witness :
  underscore "UserProfile" = underscore "userProfile".
Proof. apply (underscore_first_letter "U" "serProfile"). reflexivity. Defined.



(** ** Columns *)

Lemma fold_column_step_length idAttr (props : list (string * fieldSchema))
  (columns : list string) :
  length (fold_left (column_step idAttr) props columns)
  <= length columns + length props.
Proof.
  revert columns. induction props as [|[k fs] rest IH]; intros columns; simpl;
    [lia|].
  destruct (String.eqb k idAttr && (0 <? length columns)%nat).
  - specialize (IH columns). lia.
  - specialize (IH (columns ++ [columnDef idAttr k fs])).
    rewrite length_app in IH. simpl in IH. lia.
Qed.



(** X5: the column list is never empty, and holds at most one column more
    than the schema has properties. *)
Theorem columns_of_bounds (mapper : Mapper) :
  1 <= length (columns_of mapper)
  /\ length (columns_of mapper) <= S (length (resolved_properties mapper)).
Proof.
  unfold columns_of.
  destruct (lookup_key _ _) as [fs|].
  - pose proof (fold_column_step_length (resolved_idAttribute mapper)
                  (resolved_properties mapper) []) as Hlen.
    destruct (fold_left _ _ []) as [|c cs]; simpl in *; lia.
  - pose proof (fold_column_step_length (resolved_idAttribute mapper)
                  (resolved_properties mapper)
                  [synthesized_id (resolved_idAttribute mapper)]) as Hlen.
    rewrite fold_column_step_nonempty in * by done. simpl in *. lia.
Qed.

(** ** The compiler and its builder *)

Section ReplayFacts.
Context {B : Type} `{QueryBuilder B}.







End ReplayFacts.


Lemma toLowerCase_idempotent (s : string) :
  toLowerCase (toLowerCase s) = toLowerCase s.
Proof. induction s as [|c r IH]; [done|]. simpl. by rewrite lower_lower, IH. Qed.

Lemma apply_orderBy_lowered {B : Type} `{QueryBuilder B} (order : list (string * string)) :
  forall b : B,
  apply_orderBy b (map (fun item => (fst item, toLowerCase (snd item))) order)
  = apply_orderBy b order.
Proof.
  unfold apply_orderBy. induction order as [|[n d] order IH]; intros b; [done|].
  simpl. by rewrite toLowerCase_idempotent, IH.
Qed.

Lemma toSql_lower_directions {B : Type} `{QueryBuilder B} (q : query) :
  forall b : B, toSql b (lower_directions q) = toSql b q.
Proof.
  induction q as [l o ob fs|l o ob w fs IH] using query_ind'; intros b;
    cbn [toSql lower_directions q_limit q_offset q_orderBy q_where q_fields].
  - destruct ob as [order|]; [|done]. by rewrite apply_orderBy_lowered.
  - rewrite IH. destruct ob as [order|]; [|done]. by rewrite apply_orderBy_lowered.
Qed.

(** X7: the case of a direction does not matter: two queries that differ
    only in the case of the directions of their orderBy items, at any nesting
    depth, compile to the same builder. *)
Theorem toSql_direction_case {B : Type} `{QueryBuilder B} (q1 q2 : query) (b : B) :
  lower_directions q1 = lower_directions q2 ->
  toSql b q1 = toSql b q2.
Proof.
  intros Heq. rewrite <- (toSql_lower_directions q1), <- (toSql_lower_directions q2).
  by rewrite Heq.
Qed.

Lemma toSql_direction_case_witness :
  toSql empty_statement q_order_upper = toSql empty_statement q_order_lower.
Proof. apply (toSql_direction_case q_order_upper q_order_lower). reflexivity. Defined.

Lemma predicate_of_length field op value :
  length (predicate_of field op value) = if recognized op then 1 else 0.
Proof.
  unfold predicate_of, recognized. simpl.
  repeat (match goal with
          | |- context [String.eqb op ?s] =>
              destruct (String.eqb op s); simpl; [reflexivity|]
          end).
  reflexivity.
Qed.

Lemma field_predicates_length fields :
  length (field_predicates fields) = recognized_entries fields.
Proof.
  unfold field_predicates, recognized_entries.
  induction fields as [|[f cond] fields IH]; [done|]. simpl.
  rewrite length_app, IH, List.filter_app, length_app. f_equal.
  clear IH. induction cond as [|[op v] cond IH]; [done|]. simpl.
  rewrite length_app, IH, predicate_of_length.
  by destruct (recognized op).
Qed.

(** The predicates of the statement a query compiles to. *)
Lemma toSql_statement_where (q : query) : forall b : statement,
  st_where (toSql b q) = st_where b ++ effective_predicates q.
Proof.
  induction q as [l o ob fs|l o ob w fs IH] using query_ind'; intros b;
    cbn [toSql effective_predicates q_limit q_offset q_orderBy q_where q_fields];
    rewrite apply_fields_statement; cbn [st_where].
  - destruct ob as [order|]; [rewrite apply_orderBy_statement|];
      by destruct l, o.
  - rewrite IH, <- app_assoc. f_equal.
    destruct ob as [order|]; [rewrite apply_orderBy_statement|];
      by destruct l, o.
Qed.

Lemma effective_predicates_length (q : query) :
  length (effective_predicates q) = total_recognized q.
Proof.
  induction q as [l o ob fs|l o ob w fs IH] using query_ind';
    cbn [effective_predicates total_recognized q_where q_fields].
  - simpl. rewrite field_predicates_length. lia.
  - rewrite length_app, IH, field_predicates_length. lia.
Qed.

(** X8: every operator entry with a recognized operator, in the query or in
    a [where] nested in it, adds exactly one predicate to the statement, and
    nothing else does: several operators on one field give several
    predicates. *)
Theorem toSql_one_predicate_per_operator (q : query) (b : statement) :
  length (st_where (toSql b q)) = length (st_where b) + total_recognized q.
Proof.
  by rewrite toSql_statement_where, length_app, effective_predicates_length.
Qed.

Lemma apply_op_log (log : list call) field op value :
  apply_op log field op value = log ++ predicate_of field op value.
Proof.
  unfold apply_op, predicate_of.
  repeat (match goal with
          | |- (if ?c then _ else _) = _ => destruct c; [reflexivity|]
          end).
  by rewrite app_nil_r.
Qed.

Lemma predicate_of_field field op value (c : call) :
  In c (predicate_of field op value) -> predicate_field c = Some field.
Proof.
  unfold predicate_of.
  repeat (match goal with
          | |- In _ (if ?b then _ else _) -> _ =>
              destruct b; [by intros [<-|[]]|]
          end).
  intros [].
Qed.

Section ReservedFacts.

Lemma clean_apply_cond field cond : forall log : list call,
  reserved field = false -> Forall clean log ->
  Forall clean (apply_cond log field cond).
Proof.
  unfold apply_cond. induction cond as [|[op v] cond IH]; intros log Hf Hlog;
    [done|].
  simpl. apply IH; [done|]. rewrite apply_op_log. apply Forall_app. split; [done|].
  apply Forall_forall. intros c Hc f' Hf'.
  apply list_elem_of_In, predicate_of_field in Hc. congruence.
Qed.

Lemma clean_apply_fields fields : forall log : list call,
  (forall f cond, In (f, cond) fields -> reserved f = false) ->
  Forall clean log ->
  Forall clean (apply_fields log fields).
Proof.
  unfold apply_fields. induction fields as [|[f cond] fields IH];
    intros log Hfs Hlog; [done|].
  simpl. apply IH; [intros; eapply Hfs; by right|].
  apply clean_apply_cond; [|done]. eapply Hfs. by left.
Qed.

Lemma clean_apply_orderBy order : forall log : list call,
  Forall clean log -> Forall clean (apply_orderBy log order).
Proof.
  unfold apply_orderBy. induction order as [|[n d] order IH]; intros log Hlog;
    [done|].
  simpl. apply IH. apply Forall_app. split; [done|].
  by repeat constructor.
Qed.

Lemma rendered_fields_unreserved (es : list (string * data)) fs f cond :
  List.filter (fun e => negb (reserved (fst e))) es = field_data fs ->
  In (f, cond) fs -> reserved f = false.
Proof.
  intros Hfields Hin.
  assert (Hin' : In (f, DObj cond) (field_data fs)).
  { unfold field_data. apply in_map_iff. by exists (f, cond). }
  rewrite <- Hfields in Hin'. apply filter_In in Hin' as [_ Hr].
  simpl in Hr. by destruct (reserved f).
Qed.

Lemma clean_toSql (d : data) (q : query) :
  renders d q -> forall log : list call,
  Forall clean log -> Forall clean (toSql log q).
Proof.
  induction 1 as [es ob fs Hord Hwhere Hfields
                 |es ob dw w fs Hord Hwhere Hrw IH Hfields];
    intros log Hlog;
    cbn [toSql q_limit q_offset q_orderBy q_where q_fields].
  - apply clean_apply_fields;
      [intros; by eapply rendered_fields_unreserved|].
    assert (Hlo : Forall clean
              match lookup_key "offset" es with
              | Some v => offset
                  match lookup_key "limit" es with
                  | Some v0 => limit log v0
                  | None => log
                  end v
              | None =>
                  match lookup_key "limit" es with
                  | Some v => limit log v
                  | None => log
                  end
              end).
    { destruct (lookup_key "limit" es), (lookup_key "offset" es); simpl;
        rewrite ?Forall_app; repeat split; try done; by repeat constructor. }
    destruct ob; [by apply clean_apply_orderBy|done].
  - apply clean_apply_fields;
      [intros; by eapply rendered_fields_unreserved|].
    apply IH.
    assert (Hlo : Forall clean
              match lookup_key "offset" es with
              | Some v => offset
                  match lookup_key "limit" es with
                  | Some v0 => limit log v0
                  | None => log
                  end v
              | None =>
                  match lookup_key "limit" es with
                  | Some v => limit log v
                  | None => log
                  end
              end).
    { destruct (lookup_key "limit" es), (lookup_key "offset" es); simpl;
        rewrite ?Forall_app; repeat split; try done; by repeat constructor. }
    destruct ob; [by apply clean_apply_orderBy|done].
Qed.

End ReservedFacts.

(** X9: a key named [limit], [offset], [orderBy] or [where] is never read as
    a column to filter on: for a query object held in the store, whatever its
    contents, no predicate the compiler logs is about a column of one of
    these names. *)
Theorem toSql_never_filters_reserved
  (fuel : nat) (v : jsval) (h : heap) (d : data) (q : query) :
  denotes h v d -> renders d q -> depth d < fuel ->
  exists log : list call,
    fst (Store.toSql fuel [] v h) = Ok log
    /\ forall c field,
         In c log -> predicate_field c = Some field -> reserved field = false.
Proof.
  intros Hd Hr Hfuel.
  destruct (toSql_on_store_runs d q Hr fuel [] v h Hfuel Hd) as (h' & Hrun).
  exists (toSql [] q). rewrite Hrun. split; [done|].
  intros c field Hin.
  pose proof (clean_toSql d q Hr [] (Forall_nil_2 _)) as Hclean.
  rewrite Forall_forall in Hclean. apply Hclean. by apply list_elem_of_In.
Qed.

Lemma toSql_never_filters_reserved_witness :
  exists log : list call,
    fst (Store.toSql 10 [] (VRef 1%positive) h_nested) = Ok log
    /\ forall c field,
         In c log -> predicate_field c = Some field -> reserved field = false.
Proof.
  apply (toSql_never_filters_reserved 10 (VRef 1%positive) h_nested d_nested
           q_nested denotes_h_nested renders_d_nested).
  simpl. lia.
Defined.

(** X10: where the reserved keys stand among the keys of the query object
    does not matter: two query objects that render the same abstract query
    compile to the same builder. *)
Theorem toSql_key_order {B : Type} `{QueryBuilder B} (builder : B) (q : query)
  (fuel1 fuel2 : nat) (v1 v2 : jsval) (h1 h2 : heap) (d1 d2 : data) :
  denotes h1 v1 d1 -> renders d1 q -> depth d1 < fuel1 ->
  denotes h2 v2 d2 -> renders d2 q -> depth d2 < fuel2 ->
  fst (Store.toSql fuel1 builder v1 h1) = Ok (toSql builder q)
  /\ fst (Store.toSql fuel2 builder v2 h2) = Ok (toSql builder q).
Proof.
  intros Hd1 Hr1 Hf1 Hd2 Hr2 Hf2.
  destruct (toSql_on_store_runs d1 q Hr1 fuel1 builder v1 h1 Hf1 Hd1) as (? & ->).
  by destruct (toSql_on_store_runs d2 q Hr2 fuel2 builder v2 h2 Hf2 Hd2) as (? & ->).
Qed.

Lemma toSql_key_order_witness :
  fst (Store.toSql 5 empty_statement (VRef 1%positive) h_limit_offset)
  = fst (Store.toSql 5 empty_statement (VRef 1%positive) h_offset_limit).
Proof.
  assert (Hd1 : denotes h_limit_offset (VRef 1%positive)
                  (DObj [("limit", DNum 10); ("offset", DNum 20)])).
  { apply (den_obj _ 1%positive [("limit", VNum 10); ("offset", VNum 20)]);
      [reflexivity|].
    repeat (apply List.Forall2_cons; [split; [reflexivity|apply den_num]|]).
    apply List.Forall2_nil. }
  assert (Hd2 : denotes h_offset_limit (VRef 1%positive)
                  (DObj [("offset", DNum 20); ("limit", DNum 10)])).
  { apply (den_obj _ 1%positive [("offset", VNum 20); ("limit", VNum 10)]);
      [reflexivity|].
    repeat (apply List.Forall2_cons; [split; [reflexivity|apply den_num]|]).
    apply List.Forall2_nil. }
  destruct (toSql_key_order empty_statement q_page 5 5 _ _ _ _ _ _
              Hd1 (renders_flat [("limit", DNum 10); ("offset", DNum 20)] None []
                     eq_refl eq_refl eq_refl)
              ltac:(simpl; lia)
              Hd2 (renders_flat [("offset", DNum 20); ("limit", DNum 10)] None []
                     eq_refl eq_refl eq_refl)
              ltac:(simpl; lia)) as [-> ->].
  reflexivity.
Defined.

(** ** What every operation keeps *)

Lemma steady_refl (a : adapter) : steady a a.
Proof. unfold steady. split_and!; [done| |done]. exists []. by rewrite app_nil_r. Qed.

Lemma steady_trans (a1 a2 a3 : adapter) :
  steady a1 a2 -> steady a2 a3 -> steady a1 a3.
Proof.
  intros (Hc1 & [m1 Hs1] & Ho1) (Hc2 & [m2 Hs2] & Ho2).
  unfold steady. split_and!.
  - by etrans.
  - exists (m1 ++ m2). by rewrite Hs2, Hs1, <- app_assoc.
  - congruence.
Qed.

Lemma quiet_refl (a : adapter) : quiet a a.
Proof. split; [apply steady_refl|done]. Qed.

Lemma quiet_trans (a1 a2 a3 : adapter) :
  quiet a1 a2 -> quiet a2 a3 -> quiet a1 a3.
Proof.
  intros [Hs1 Hh1] [Hs2 Hh2]. split; [by eapply steady_trans|by etrans].
Qed.

Lemma keeps_quiet_steady {A} (m : M adapter A) :
  keeps quiet m -> keeps steady m.
Proof. intros Hm a. by destruct (Hm a). Qed.

Section KeepsFacts.
Variable R : adapter -> adapter -> Prop.
Hypothesis R_refl : forall a, R a a.
Hypothesis R_trans : forall a1 a2 a3, R a1 a2 -> R a2 a3 -> R a1 a3.

Lemma keeps_ret {A} (x : A) : keeps R (ret x).
Proof. intros a. apply R_refl. Qed.

Lemma keeps_throw {A} msg : keeps R (throw (A := A) msg).
Proof. intros a. apply R_refl. Qed.

Lemma keeps_stuck {A} : keeps R (stuck (A := A)).
Proof. intros a. apply R_refl. Qed.

Lemma keeps_get_state : keeps R get_state.
Proof. intros a. apply R_refl. Qed.

Lemma keeps_bind {A C} (m : M adapter A) (k : A -> M adapter C) :
  keeps R m -> (forall x, keeps R (k x)) -> keeps R (bind m k).
Proof.
  intros Hm Hk a. unfold bind. specialize (Hm a).
  destruct (m a) as [[x|msg|] a']; simpl in *; [|done..].
  eapply R_trans; [exact Hm|apply Hk].
Qed.

Lemma keeps_foldM {A X} (f : A -> X -> M adapter A) (xs : list X) (acc : A) :
  (forall acc x, keeps R (f acc x)) -> keeps R (foldM f xs acc).
Proof.
  intros Hf. revert acc. induction xs as [|x xs IH]; intros acc; simpl;
    [apply keeps_ret|].
  apply keeps_bind; [done|]. intros acc'. apply IH.
Qed.

Lemma keeps_mapM {X Y} (f : X -> M adapter Y) (xs : list X) :
  (forall x, keeps R (f x)) -> keeps R (mapM f xs).
Proof.
  intros Hf. induction xs as [|x xs IH]; simpl; [apply keeps_ret|].
  apply keeps_bind; [done|]. intros y.
  apply keeps_bind; [done|]. intros ys. apply keeps_ret.
Qed.

Lemma keeps_read_store l : keeps R (read_store l).
Proof. intros a. unfold read_store. destruct (store a !! l); apply R_refl. Qed.

Lemma keeps_defined prop result : keeps R (defined prop result).
Proof. destruct result; [apply keeps_ret|apply keeps_throw]. Qed.

Lemma keeps_row_name row : keeps R (row_name row).
Proof.
  unfold row_name. destruct (get_prop "name" row) as [[]|];
    try apply keeps_stuck. apply keeps_ret.
Qed.

Lemma keeps_iterate records : keeps R (iterate records).
Proof.
  destruct records; simpl; try apply keeps_throw; try apply keeps_stuck.
  apply keeps_bind; [apply keeps_read_store|].
  intros [?|?]; [apply keeps_throw|apply keeps_ret].
Qed.

End KeepsFacts.

Section QuietFacts.
Variable fetch : list request -> request -> transport.

Lemma quiet_record_request req a : quiet a (record_request req a).
Proof. unfold quiet, steady. simpl. split_and!; eauto. Qed.

Lemma quiet_with_cached tableName a : quiet a (with_cached tableName a).
Proof.
  unfold quiet, steady. simpl. split_and!; [set_solver| |done|done].
  exists []. by rewrite app_nil_r.
Qed.

Lemma keeps_executeSQL q ps : keeps quiet (_executeSQL fetch q ps).
Proof. intros a. rewrite executeSQL_run. apply quiet_record_request. Qed.

Lemma keeps_cache_add tableName : keeps quiet (cache_add tableName).
Proof. intros a. apply quiet_with_cached. Qed.

Lemma keeps_ensureTable mapper : keeps quiet (_ensureTable fetch mapper).
Proof.
  unfold _ensureTable.
  apply keeps_bind; [apply quiet_trans|apply keeps_get_state, quiet_refl|].
  intros a0. destruct (decide _); [apply keeps_ret, quiet_refl|].
  destruct (negb _); [apply keeps_throw, quiet_refl|].
  apply keeps_bind; [apply quiet_trans|apply keeps_executeSQL|].
  intros _. apply keeps_cache_add.
Qed.

Lemma keeps_lift_store {A} (m : M heap A) :
  (forall h, grows h m) -> keeps quiet (lift_store m).
Proof.
  intros Hm a. unfold lift_store. specialize (Hm (store a) (store a) (reflexivity _)).
  destruct (m (store a)) as [r h]. simpl in *.
  unfold quiet, steady. simpl. split_and!; [done| |done|done].
  exists []. by rewrite app_nil_r.
Qed.

Lemma keeps_or_empty query : keeps quiet (or_empty query).
Proof.
  unfold or_empty. destruct (truthy query); [apply keeps_ret, quiet_refl|].
  apply keeps_bind; [apply quiet_trans| |intros; apply keeps_ret, quiet_refl].
  apply keeps_lift_store. intros h. apply grows_alloc.
Qed.

(** Writing a property of a stored object leaves cache, requests and option. *)
Lemma keeps_set_key props key v : keeps steady (set_key props key v).
Proof.
  unfold set_key.
  apply keeps_bind; [apply steady_trans|apply keeps_read_store, steady_refl|].
  intros [entries|elems]; [|apply keeps_stuck, steady_refl].
  intros a. unfold steady. simpl. split_and!; [done| |done]. exists [].
  by rewrite app_nil_r.
Qed.

Lemma keeps_create insertSQL mapper props :
  keeps steady (_create fetch insertSQL mapper props).
Proof.
  unfold _create.
  apply keeps_bind; [apply steady_trans|apply keeps_quiet_steady, keeps_ensureTable|].
  intros _.
  apply keeps_bind; [apply steady_trans|apply keeps_read_store, steady_refl|].
  intros o.
  apply keeps_bind; [apply steady_trans|apply keeps_quiet_steady, keeps_executeSQL|].
  intros [r|]; [|apply keeps_throw, steady_refl].
  apply keeps_bind; [apply steady_trans| |intros; apply keeps_ret, steady_refl].
  destruct (truthy _); [apply keeps_set_key|apply keeps_ret, steady_refl].
Qed.

End QuietFacts.

Section CrudKeeps.
Context {B : Type} `{QueryBuilder B} `{Knex B}.
Variable fetch : list request -> request -> transport.
Variable utils_get : heap -> jsval -> option string -> data.

Local Ltac step :=
  first
    [ apply keeps_ret, quiet_refl
    | apply keeps_throw, quiet_refl
    | apply keeps_stuck, quiet_refl
    | apply keeps_get_state, quiet_refl
    | apply keeps_defined, quiet_refl
    | apply keeps_ensureTable
    | apply keeps_executeSQL
    | apply keeps_or_empty
    | apply keeps_bind; [apply quiet_trans| |intros ?] ].

Lemma keeps_execute (builder : B) : keeps quiet (Crud.execute fetch builder).
Proof. apply keeps_executeSQL. Qed.

Lemma keeps_filtered fuel (builder : B) query :
  keeps quiet (Crud.filtered fetch fuel builder query).
Proof.
  unfold Crud.filtered.
  repeat first [apply keeps_execute
               |apply keeps_lift_store; intros h; apply grows_toSql
               |step].
Qed.

Lemma keeps_id_column mapper : keeps quiet (Crud.id_column mapper).
Proof. unfold Crud.id_column. destruct (idAttribute mapper); step. Qed.

Lemma keeps_seed : keeps quiet (Crud.seed_tableCache fetch).
Proof.
  unfold Crud.seed_tableCache. step; [step|].
  destruct x as [r|]; [|step]. destruct (results r) as [rows|]; [|step].
  step.
  - apply keeps_mapM; [apply quiet_refl|apply quiet_trans|].
    intros row. apply keeps_row_name, quiet_refl.
  - apply keeps_foldM; [apply quiet_refl|apply quiet_trans|].
    intros _ tableName. apply keeps_cache_add.
Qed.

Lemma keeps_count fuel mapper query :
  keeps quiet (Crud._count fetch fuel mapper query).
Proof. unfold Crud._count. repeat first [apply keeps_filtered|step]. Qed.

Lemma keeps_sum fuel mapper field query :
  keeps quiet (Crud._sum fetch fuel mapper field query).
Proof. unfold Crud._sum. repeat first [apply keeps_filtered|step]. Qed.

Lemma keeps_findAll fuel mapper query :
  keeps quiet (Crud._findAll fetch fuel mapper query).
Proof. unfold Crud._findAll. repeat first [apply keeps_filtered|step]. Qed.

Lemma keeps_destroyAll fuel mapper query :
  keeps quiet (Crud._destroyAll fetch fuel mapper query).
Proof. unfold Crud._destroyAll. repeat first [apply keeps_filtered|step]. Qed.

Lemma keeps_updateAll fuel mapper props query :
  keeps quiet (Crud._updateAll fetch fuel mapper props query).
Proof. unfold Crud._updateAll. repeat first [apply keeps_filtered|step]. Qed.

Lemma keeps_find mapper id : keeps quiet (Crud._find fetch mapper id).
Proof.
  unfold Crud._find.
  repeat first [apply keeps_id_column|apply keeps_execute|step].
Qed.

Lemma keeps_destroy mapper id : keeps quiet (Crud._destroy fetch mapper id).
Proof.
  unfold Crud._destroy.
  repeat first [apply keeps_id_column|apply keeps_execute|step].
Qed.

Lemma keeps_update mapper id props :
  keeps quiet (Crud._update fetch mapper id props).
Proof.
  unfold Crud._update.
  repeat first [apply keeps_id_column|apply keeps_execute|apply keeps_find|step].
Qed.

Lemma keeps_createMany mapper props :
  keeps quiet (Crud._createMany fetch mapper props).
Proof.
  unfold Crud._createMany.
  destruct props; repeat first [apply keeps_execute|step].
Qed.

Lemma keeps_updateMany mapper records :
  keeps quiet (Crud._updateMany fetch utils_get mapper records).
Proof.
  unfold Crud._updateMany. step;
    [apply keeps_iterate; [apply quiet_refl|apply quiet_trans]|].
  apply keeps_foldM; [apply quiet_refl|apply quiet_trans|].
  intros acc record. unfold Crud.updateMany_step.
  repeat first [apply keeps_update|step].
Qed.

End CrudKeeps.

(** X11: whatever it is given and however it ends, no operation of the
    adapter, nor the constructor's seeding task, removes a table from the
    cache, alters or drops a request that was sent, or changes the
    [autocreateTables] option. *)
Theorem operations_steady {B : Type} `{QueryBuilder B} `{Knex B}
  (fetch : list request -> request -> transport)
  (utils_get : heap -> jsval -> option string -> data)
  (insertSQL : string -> obj -> request)
  (fuel : nat) (mapper : Mapper) (query props records : jsval) (record : loc)
  (id : data) (field : string) :
  keeps steady (_ensureTable fetch mapper)
  /\ keeps steady (Crud.seed_tableCache fetch)
  /\ keeps steady (_create fetch insertSQL mapper record)
  /\ keeps steady (Crud._createMany fetch mapper props)
  /\ keeps steady (Crud._count fetch fuel mapper query)
  /\ keeps steady (Crud._sum fetch fuel mapper field query)
  /\ keeps steady (Crud._find fetch mapper id)
  /\ keeps steady (Crud._findAll fetch fuel mapper query)
  /\ keeps steady (Crud._update fetch mapper id props)
  /\ keeps steady (Crud._updateAll fetch fuel mapper props query)
  /\ keeps steady (Crud._updateMany fetch utils_get mapper records)
  /\ keeps steady (Crud._destroy fetch mapper id)
  /\ keeps steady (Crud._destroyAll fetch fuel mapper query).
Proof.
  split_and!; try apply keeps_create; apply keeps_quiet_steady.
  - apply keeps_ensureTable.
  - apply keeps_seed.
  - apply keeps_createMany.
  - apply keeps_count.
  - apply keeps_sum.
  - apply keeps_find.
  - apply keeps_findAll.
  - apply keeps_update.
  - apply keeps_updateAll.
  - apply keeps_updateMany.
  - apply keeps_destroy.
  - apply keeps_destroyAll.
Qed.

(** X12: [_create] is the only operation that writes to an object a caller
    holds: whatever they are given and however they end, all the others leave
    every stored object as it was (they only add the copies the compiler
    makes). *)
Theorem operations_leave_objects {B : Type} `{QueryBuilder B} `{Knex B}
  (fetch : list request -> request -> transport)
  (utils_get : heap -> jsval -> option string -> data)
  (fuel : nat) (mapper : Mapper) (query props records : jsval)
  (id : data) (field : string) (a : adapter) :
  store a ⊆ store (snd (_ensureTable fetch mapper a))
  /\ store a ⊆ store (snd (Crud.seed_tableCache fetch a))
  /\ store a ⊆ store (snd (Crud._createMany fetch mapper props a))
  /\ store a ⊆ store (snd (Crud._count fetch fuel mapper query a))
  /\ store a ⊆ store (snd (Crud._sum fetch fuel mapper field query a))
  /\ store a ⊆ store (snd (Crud._find fetch mapper id a))
  /\ store a ⊆ store (snd (Crud._findAll fetch fuel mapper query a))
  /\ store a ⊆ store (snd (Crud._update fetch mapper id props a))
  /\ store a ⊆ store (snd (Crud._updateAll fetch fuel mapper props query a))
  /\ store a ⊆ store (snd (Crud._updateMany fetch utils_get mapper records a))
  /\ store a ⊆ store (snd (Crud._destroy fetch mapper id a))
  /\ store a ⊆ store (snd (Crud._destroyAll fetch fuel mapper query a)).
Proof.
  split_and!.
  - apply (keeps_ensureTable fetch mapper a).
  - apply (keeps_seed fetch a).
  - apply (keeps_createMany fetch mapper props a).
  - apply (keeps_count fetch fuel mapper query a).
  - apply (keeps_sum fetch fuel mapper field query a).
  - apply (keeps_find fetch mapper id a).
  - apply (keeps_findAll fetch fuel mapper query a).
  - apply (keeps_update fetch mapper id props a).
  - apply (keeps_updateAll fetch fuel mapper props query a).
  - apply (keeps_updateMany fetch utils_get mapper records a).
  - apply (keeps_destroy fetch mapper id a).
  - apply (keeps_destroyAll fetch fuel mapper query a).
Qed.

(** ** The table check comes first *)

Lemma ensureTable_disabled_run
  (fetch : list request -> request -> transport) (mapper : Mapper) (a : adapter) :
  _getTable mapper ∉ tableCache a ->
  truthy_flag (autocreateTables a) = false ->
  _ensureTable fetch mapper a
  = (Throw ("Table " ++ _getTable mapper ++ " not found"), a).
Proof.
  intros Hnin Hauto. unfold _ensureTable, bind, get_state. simpl.
  rewrite decide_False by done. by rewrite Hauto.
Qed.

(** X13: with auto-creation off and the table not in the cache, every
    operation that works on a table fails with "Table <name> not found"
    before it builds or sends anything: the adapter is left as it was. *)
Theorem operations_need_table {B : Type} `{QueryBuilder B} `{Knex B}
  (fetch : list request -> request -> transport)
  (insertSQL : string -> obj -> request)
  (fuel : nat) (mapper : Mapper) (query props : jsval) (record : loc)
  (id : data) (field : string) (a : adapter) :
  _getTable mapper ∉ tableCache a ->
  truthy_flag (autocreateTables a) = false ->
  props <> VUndef -> props <> VNull ->
  let failure {A} : outcome A * adapter :=
    (Throw ("Table " ++ _getTable mapper ++ " not found"), a) in
  _create fetch insertSQL mapper record a = failure
  /\ Crud._createMany fetch mapper props a = failure
  /\ Crud._count fetch fuel mapper query a = failure
  /\ Crud._sum fetch fuel mapper field query a = failure
  /\ Crud._find fetch mapper id a = failure
  /\ Crud._findAll fetch fuel mapper query a = failure
  /\ Crud._update fetch mapper id props a = failure
  /\ Crud._updateAll fetch fuel mapper props query a = failure
  /\ Crud._destroy fetch mapper id a = failure
  /\ Crud._destroyAll fetch fuel mapper query a = failure.
Proof.
  intros Hnin Hauto Hu Hn failure.
  pose proof (ensureTable_disabled_run fetch mapper a Hnin Hauto) as Hrun.
  unfold failure, _create, Crud._createMany, Crud._count, Crud._sum, Crud._find,
    Crud._findAll, Crud._update, Crud._updateAll, Crud._destroy, Crud._destroyAll.
  split_and!; try (unfold bind at 1; by rewrite Hrun).
  destruct props; try done; unfold bind at 1; by rewrite Hrun.
Qed.

Lemma operations_need_table_witness :
  Crud._count (B := sketch) fetch_rows 5 user_mapper VUndef (fresh_adapter None)
  = (Throw "Table user not found", fresh_adapter None).
Proof.
  pose proof (operations_need_table (B := sketch) fetch_rows insert_stub 5
                user_mapper VUndef (VNum 0) 1%positive DNull "age"
                (fresh_adapter None)) as Hall.
  cbv zeta in Hall.
  destruct Hall as (_ & _ & Hcount & _);
    [simpl; apply not_elem_of_empty|reflexivity|discriminate|discriminate|].
  exact Hcount.
Defined.

(** ** What the operations send and return *)

Section CrudRuns.
Context {B : Type} `{QueryBuilder B} `{Knex B}.
Variable fetch : list request -> request -> transport.
Variable utils_get : heap -> jsval -> option string -> data.

Lemma execute_run (builder : B) (a : adapter) :
  Crud.execute fetch builder a =
  (match fetch (sent a) (toSQL builder) with
   | NetworkError msg => Throw msg
   | Response resp =>
       if negb (truthy_flag (success resp)) then Throw (error_message resp)
       else Ok (head (result resp))
   end, record_request (toSQL builder) a).
Proof.
  unfold Crud.execute. rewrite executeSQL_run. by destruct (toSQL builder).
Qed.





End CrudRuns.



Section MoreRuns.
Context {B : Type} `{QueryBuilder B} `{Knex B}.
Variable fetch : list request -> request -> transport.
Variable utils_get : heap -> jsval -> option string -> data.



End MoreRuns.





Lemma foldM_app {S A X} (f : A -> X -> M S A) (xs ys : list X) (acc : A) (s : S) :
  foldM f (xs ++ ys) acc s =
  match foldM f xs acc s with
  | (Ok acc', s') => foldM f ys acc' s'
  | (Throw msg, s') => (Throw msg, s')
  | (Stuck, s') => (Stuck, s')
  end.
Proof.
  revert acc s. induction xs as [|x xs IH]; intros acc s; [done|].
  simpl. unfold bind. destruct (f acc x s) as [[acc'|msg|] s']; [|done..].
  apply IH.
Qed.

(** X17: [_updateMany] takes the records one at a time, in their order, and
    stops at the first that fails: the error propagates with the adapter as
    that update left it, whatever records follow; they are never sent. For an
    empty array it returns at once, with nothing sent and no table check. *)
Theorem updateMany_stops_at_failure {B : Type} `{QueryBuilder B} `{Knex B}
  (fetch : list request -> request -> transport)
  (utils_get : heap -> jsval -> option string -> data)
  (mapper : Mapper) (l : loc) (a : adapter) :
  (store a !! l = Some (Arr []) ->
     Crud._updateMany fetch utils_get mapper (VRef l) a = (Ok ([], []), a))
  /\ (forall before record later acc a1 msg a2,
        store a !! l = Some (Arr (before ++ record :: later)) ->
        foldM (Crud.updateMany_step fetch utils_get mapper) before ([], []) a
        = (Ok acc, a1) ->
        Crud._update fetch mapper (utils_get (store a1) record (idAttribute mapper))
          record a1
        = (Throw msg, a2) ->
        Crud._updateMany fetch utils_get mapper (VRef l) a = (Throw msg, a2)).
Proof.
  split.
  - intros Hl. unfold Crud._updateMany, iterate, bind, read_store. by rewrite Hl.
  - intros before record later acc a1 msg a2 Hl Hbefore Hfail.
    unfold Crud._updateMany, iterate, bind at 1, bind at 1, read_store.
    rewrite Hl. unfold ret at 1. rewrite foldM_app, Hbefore. simpl.
    unfold bind at 1, Crud.updateMany_step at 1, bind at 1, get_state.
    unfold bind at 1. by rewrite Hfail.
Qed.

Lemma updateMany_stops_at_failure_witness :
  Crud._updateMany (B := sketch) fetch_first_only get_stub user_mapper
    (VRef 3%positive) records_adapter
  = (Throw "connection reset",
     Adapter (store records_adapter) {["user"]} (Some true)
       [Request "update user where ..." []; Request " user where ..." []]).
Proof.
  destruct (updateMany_stops_at_failure (B := sketch) fetch_first_only get_stub
              user_mapper 3%positive records_adapter) as [_ Hstop].
  apply (Hstop [] (VRef 1%positive) [VRef 2%positive] ([], []) records_adapter);
    reflexivity.
Defined.

(** X18: for a table in the cache, [_createMany] sends the one INSERT and
    returns the props it was given with the metadata; it writes nothing onto
    the records, whatever the metadata reports. *)
Theorem createMany_returns_props {B : Type} `{QueryBuilder B} `{Knex B}
  (fetch : list request -> request -> transport)
  (mapper : Mapper) (props : jsval) (a : adapter)
  (resp : envelope) (r : queryResult) (rest : list queryResult) :
  _getTable mapper ∈ tableCache a ->
  props <> VUndef -> props <> VNull ->
  let inserting := toSQL (k_insert (k_table (_getTable mapper)) (store a) props) in
  fetch (sent a) inserting = Response resp ->
  success resp = Some true ->
  result resp = r :: rest ->
  Crud._createMany fetch mapper props a
  = (Ok (props, meta r), record_request inserting a)
  /\ store (record_request inserting a) = store a.
Proof.
  intros Hin Hu Hn inserting Hfetch Hsucc Hres. split; [|done].
  assert (Hrun : bind (_ensureTable fetch mapper)
                   (fun _ => bind get_state (fun a0 =>
                      bind (Crud.execute fetch
                              (k_insert (k_table (_getTable mapper)) (store a0) props))
                        (fun result0 => bind (defined "meta" result0)
                           (fun r0 => ret (props, meta r0))))) a
                 = (Ok (props, meta r), record_request inserting a)).
  { unfold bind at 1. rewrite (ensureTable_cached fetch mapper a Hin).
    unfold bind at 1, get_state. unfold bind at 1. rewrite execute_run.
    fold inserting. by rewrite Hfetch, Hsucc, Hres. }
  unfold Crud._createMany. by destruct props.
Qed.

Lemma createMany_returns_props_witness :
  Crud._createMany (B := sketch) (fetch_meta [("last_row_id", VNum 9)])
    user_mapper (VRef 3%positive) records_adapter
  = (Ok (VRef 3%positive, Some [("last_row_id", VNum 9)]),
     Adapter (store records_adapter) {["user"]} (Some true)
       [Request "insert user" []]).
Proof.
  pose proof (createMany_returns_props (B := sketch)
                (fetch_meta [("last_row_id", VNum 9)]) user_mapper
                (VRef 3%positive) records_adapter
                (Envelope (Some true)
                   [QueryResult (Some []) (Some [("last_row_id", VNum 9)])] [])
                (QueryResult (Some []) (Some [("last_row_id", VNum 9)])) [])
    as Hall.
  cbv zeta in Hall.
  destruct Hall as (Hrun & _);
    [simpl; set_solver|discriminate|discriminate
    |reflexivity|reflexivity|reflexivity|].
  exact Hrun.
Defined.

(** ** Seeding and the first insert *)

Lemma mapM_row_name (rows : list (list (string * jsval))) (names : list string)
  (a : adapter) :
  Forall2 (fun row tableName => get_prop "name" row = Some (VStr tableName))
    rows names ->
  mapM row_name rows a = (Ok names, a).
Proof.
  induction 1 as [|row tableName rows names Hrow _ IH]; [done|].
  simpl. unfold bind at 1, row_name at 1. rewrite Hrow. unfold ret at 1.
  unfold bind at 1. by rewrite IH.
Qed.

Lemma foldM_cache_add (names : list string) (a : adapter) :
  foldM (fun _ tableName => cache_add tableName) names tt a
  = (Ok tt, fold_left (fun a0 tableName => with_cached tableName a0) names a).
Proof.
  revert a. induction names as [|tableName names IH]; intros a; [done|].
  simpl. unfold bind at 1, cache_add at 1, modify. apply IH.
Qed.

Lemma fold_with_cached (names : list string) (a : adapter) :
  let a' := fold_left (fun a0 tableName => with_cached tableName a0) names a in
  tableCache a' = list_to_set names ∪ tableCache a
  /\ sent a' = sent a /\ store a' = store a
  /\ autocreateTables a' = autocreateTables a.
Proof.
  revert a. induction names as [|tableName names IH]; intros a; simpl.
  - split_and!; try done. by rewrite (left_id_L ∅ (∪)).
  - destruct (IH (with_cached tableName a)) as (Hc & Hs & Hh & Ho).
    split_and!; try done. rewrite Hc. simpl.
    by rewrite (assoc_L (∪)), (comm_L (∪) (list_to_set names)).
Qed.

(** X19: when the remote lists its tables, the seeding task sends that one
    request and adds every listed name to the cache; afterwards
    [_ensureTable] returns at once, with nothing sent, for every mapper whose
    table was listed. When the listing fails, the error surfaces in the
    task and the cache is what it was. *)
Theorem seeding_spares_provisioning
  (fetch : list request -> request -> transport) (a : adapter) :
  let listing := Request "select name from sqlite_master" [] in
  (forall resp r rest rows names,
     fetch (sent a) listing = Response resp ->
     success resp = Some true ->
     result resp = r :: rest ->
     results r = Some rows ->
     Forall2 (fun row tableName => get_prop "name" row = Some (VStr tableName))
       rows names ->
     let a' := snd (Crud.seed_tableCache fetch a) in
     fst (Crud.seed_tableCache fetch a) = Ok tt
     /\ sent a' = sent a ++ [listing]
     /\ tableCache a' = list_to_set names ∪ tableCache a
     /\ forall mapper,
          In (_getTable mapper) names ->
          _ensureTable fetch mapper a' = (Ok tt, a'))
  /\ (forall msg,
        fetch (sent a) listing = NetworkError msg ->
        Crud.seed_tableCache fetch a = (Throw msg, record_request listing a)
        /\ tableCache (record_request listing a) = tableCache a).
Proof.
  intros listing. split.
  - intros resp r rest rows names Hfetch Hsucc Hres Hrows Hnames a'.
    assert (Hrun : Crud.seed_tableCache fetch a
                   = (Ok tt, fold_left (fun a0 tableName => with_cached tableName a0)
                               names (record_request listing a))).
    { unfold Crud.seed_tableCache, bind at 1. rewrite executeSQL_run.
      fold listing. rewrite Hfetch, Hsucc, Hres. simpl. rewrite Hrows.
      unfold bind at 1. rewrite (mapM_row_name rows names _ Hnames).
      apply foldM_cache_add. }
    subst a'. rewrite Hrun. cbn [fst snd].
    destruct (fold_with_cached names (record_request listing a))
      as (Hc & Hs & _ & _).
    split_and!; [done|by rewrite Hs|by rewrite Hc|].
    intros mapper Hin. apply ensureTable_cached. rewrite Hc.
    apply elem_of_union_l, elem_of_list_to_set. by apply list_elem_of_In.
  - intros msg Hfetch. split; [|done].
    unfold Crud.seed_tableCache, bind at 1. rewrite executeSQL_run.
    fold listing. by rewrite Hfetch.
Qed.

Lemma seeding_spares_provisioning_witness :
  _ensureTable fetch_catalog post_mapper
    (snd (Crud.seed_tableCache fetch_catalog (fresh_adapter (Some false))))
  = (Ok tt, snd (Crud.seed_tableCache fetch_catalog (fresh_adapter (Some false)))).
Proof.
  destruct (seeding_spares_provisioning fetch_catalog (fresh_adapter (Some false)))
    as [Hseed _].
  destruct (Hseed _ _ [] [[("name", VStr "user")]; [("name", VStr "blog_post")]]
              ["user"; "blog_post"] eq_refl eq_refl eq_refl eq_refl)
    as (_ & _ & _ & Hensure).
  - repeat constructor.
  - apply Hensure. simpl. tauto.
Defined.

(** X20: the first [_create] for a table that is not in the cache, with
    auto-creation on: when the remote accepts both statements, exactly two
    requests go out, the CREATE TABLE and then the INSERT, the caller's props
    come back with the metadata of the INSERT, and the table is in the cache
    afterwards. *)
Theorem create_provisions_then_inserts
  (fetch : list request -> request -> transport)
  (insertSQL : string -> obj -> request)
  (mapper : Mapper) (props : loc) (a : adapter)
  (entries : list (string * jsval))
  (resp0 resp : envelope) (r : queryResult) (rest : list queryResult) :
  _getTable mapper ∉ tableCache a ->
  truthy_flag (autocreateTables a) = true ->
  store a !! props = Some (Obj entries) ->
  let ddl := Request (createTableSql mapper (_getTable mapper)) [] in
  let inserting := insertSQL (_getTable mapper) (Obj entries) in
  fetch (sent a) ddl = Response resp0 ->
  success resp0 = Some true ->
  fetch (sent a ++ [ddl]) inserting = Response resp ->
  success resp = Some true ->
  result resp = r :: rest ->
  let run := _create fetch insertSQL mapper props a in
  fst run = Ok (VRef props, meta r)
  /\ sent (snd run) = sent a ++ [ddl; inserting]
  /\ tableCache (snd run) = {[_getTable mapper]} ∪ tableCache a.
Proof.
  intros Hnin Hauto Hprops ddl inserting Hf0 Hs0 Hf Hs Hres run.
  assert (Hensure : _ensureTable fetch mapper a
                    = (Ok tt, with_cached (_getTable mapper) (record_request ddl a))).
  { rewrite (ensureTable_uncached fetch mapper a Hnin Hauto). cbv zeta.
    rewrite executeSQL_run. simpl. fold ddl. by rewrite Hf0, Hs0. }
  subst run.
  rewrite (create_run fetch insertSQL mapper props a _ entries resp r rest Hensure)
    by done.
  cbn [fst snd]. split; [done|]. fold inserting.
  destruct (truthy _); simpl; split; try done; by rewrite <- app_assoc.
Qed.

Lemma create_provisions_then_inserts_witness :
  sent (snd (_create (fetch_meta [("last_row_id", VNum 1)]) insert_stub user_mapper
               1%positive (fresh_adapter (Some true))))
  = [Request "CREATE TABLE IF NOT EXISTS user (id INTEGER PRIMARY KEY AUTOINCREMENT)" [];
     Request "insert into user" []].
Proof.
  pose proof (create_provisions_then_inserts
                (fetch_meta [("last_row_id", VNum 1)]) insert_stub user_mapper
                1%positive (fresh_adapter (Some true))
                [("name", VStr "John Doe")]
                (Envelope (Some true)
                   [QueryResult (Some []) (Some [("last_row_id", VNum 1)])] [])
                (Envelope (Some true)
                   [QueryResult (Some []) (Some [("last_row_id", VNum 1)])] [])
                (QueryResult (Some []) (Some [("last_row_id", VNum 1)])) [])
    as Hall.
  cbv zeta in Hall.
  destruct Hall as (_ & Hsent & _);
    [simpl; apply not_elem_of_empty|reflexivity|reflexivity|reflexivity
    |reflexivity|reflexivity|reflexivity|reflexivity|].
  exact Hsent.
Defined.

(** X21: a failed provisioning is not remembered: after [_ensureTable] failed
    on a transport error, the next call for the same mapper sends the CREATE
    TABLE statement again. *)
Theorem ensureTable_retries
  (fetch : list request -> request -> transport) (mapper : Mapper) (a : adapter)
  (msg : string) :
  _getTable mapper ∉ tableCache a ->
  truthy_flag (autocreateTables a) = true ->
  let ddl := Request (createTableSql mapper (_getTable mapper)) [] in
  fetch (sent a) ddl = NetworkError msg ->
  let a1 := snd (_ensureTable fetch mapper a) in
  fst (_ensureTable fetch mapper a) = Throw msg
  /\ sent a1 = sent a ++ [ddl]
  /\ sent (snd (_ensureTable fetch mapper a1)) = sent a ++ [ddl; ddl].
Proof.
  intros Hnin Hauto ddl Hfetch a1.
  assert (Hrun : _ensureTable fetch mapper a = (Throw msg, record_request ddl a)).
  { rewrite (ensureTable_uncached fetch mapper a Hnin Hauto). cbv zeta.
    rewrite executeSQL_run. simpl. fold ddl. by rewrite Hfetch. }
  subst a1. rewrite Hrun. cbn [fst snd]. split_and!; [done|done|].
  rewrite (ensureTable_uncached fetch mapper (record_request ddl a)) by done.
  cbv zeta. rewrite executeSQL_run. fold ddl. cbn [fst].
  match goal with
  | |- context [fetch ?h ?r] => destruct (fetch h r) as [?|resp]
  end; [|destruct (truthy_flag (success resp))];
    cbn [negb snd sent record_request with_cached]; by rewrite <- app_assoc.
Qed.

Lemma ensureTable_retries_witness :
  sent (snd (_ensureTable (fun _ _ => NetworkError "offline") user_mapper
               (snd (_ensureTable (fun _ _ => NetworkError "offline") user_mapper
                       (fresh_adapter (Some true))))))
  = [Request "CREATE TABLE IF NOT EXISTS user (id INTEGER PRIMARY KEY AUTOINCREMENT)" [];
     Request "CREATE TABLE IF NOT EXISTS user (id INTEGER PRIMARY KEY AUTOINCREMENT)" []].
Proof.
  pose proof (ensureTable_retries (fun _ _ => NetworkError "offline") user_mapper
                (fresh_adapter (Some true)) "offline") as Hall.
  cbv zeta in Hall.
  destruct Hall as (_ & _ & Hsent);
    [simpl; apply not_elem_of_empty|reflexivity|reflexivity|].
  exact Hsent.
Defined.
